(** * LaTeX-to-notebook converter: a shallow embedding of [app.py] and
      [app_dollar.py]

    The two programs are text transformers built on Python's [re] module
    and a handful of [str] methods.  The development has these layers:

    - [Py]: Python strings (lists of characters), the [str] methods the
      programs call, and exceptions as an error monad;
    - [Re]: a backtracking matcher for the fragment of [re] the programs
      use, with [re.sub], [re.subn], [re.split] and [re.search] on top
      of one left-to-right scan, and replacement templates;
    - [App] and [AppDollar]: the functions of the two source files;
    - [Shape]: the functions and predicates in which the results are
      stated (what a substitution returns, the cells of a section, the
      forms of the ids) and the inputs of the examples;
    - [ReFacts], [PyFacts], [AppFacts], [AppDollarFacts]: the lemmas;
    - the properties of the specification, C1 to C10.

    Characters are 8-bit code points.  The classes [\s], [\d] and [\w]
    follow Python on the whole range 0..255; [str.upper] follows Python
    on ASCII and leaves the other code points alone. *)

From Stdlib Require Import Ascii String.
From Stdlib Require Import List Arith Bool Lia PeanoNat.
From Stdlib Require Import Numbers.DecimalString Numbers.DecimalNat.
Import ListNotations.

Set Implicit Arguments.

(* ===================================================================== *)
(** * Python strings and exceptions *)
(* ===================================================================== *)

Module Py.

Definition text := list ascii.

(** A string literal.  Rocq strings have no escape sequences, so a
    literal reads like a Python raw string; newline and tab are spelled
    [nl] and [tab]. *)
Definition txt (s : string) : text := list_ascii_of_string s.

Definition nl : ascii := "010"%char.
Definition tab : ascii := "009"%char.
Definition bsl : ascii := "\"%char.

(** ** Exceptions *)

Inductive exn : Type :=
| IndexError       (* list index out of range *)
| AttributeError   (* a [str] method called on [None] *)
| TypeError        (* [None] passed where [re] expects a string *)
| ReError.         (* [re.error]: bad escape in a replacement template *)

Inductive result (A : Type) : Type :=
| Ok (a : A)
| Raise (e : exn).

Arguments Ok {A} a.
Arguments Raise {A} e.

Definition bind {A B} (m : result A) (f : A -> result B) : result B :=
  match m with
  | Ok a => f a
  | Raise e => Raise e
  end.

Notation "x <- m ;; k" := (bind m (fun x => k))
  (at level 61, m at next level, right associativity).

(** [for x in xs: st = body x st], stopping at the first exception. *)
Fixpoint for_each {A S} (xs : list A) (body : A -> S -> result S) (st : S)
  : result S :=
  match xs with
  | [] => Ok st
  | x :: xs' => st' <- body x st ;; for_each xs' body st'
  end.

(** [[f(x) for x in xs]] for a fallible [f]. *)
Fixpoint map_m {A B} (f : A -> result B) (xs : list A) : result (list B) :=
  match xs with
  | [] => Ok []
  | x :: xs' => y <- f x ;; ys <- map_m f xs' ;; Ok (y :: ys)
  end.

(** [range(start, stop, step)] for a positive step. *)
Definition range (start stop step : nat) : list nat :=
  map (fun k => start + k * step)
      (seq 0 ((stop - start + (step - 1)) / step)).

(** [xs[i]], raising [IndexError] out of range. *)
Definition get {A} (xs : list A) (i : nat) : result A :=
  match nth_error xs i with
  | Some x => Ok x
  | None => Raise IndexError
  end.

(** A value that is a [str] or [None].  Calling a [str] method on
    [None] raises [AttributeError], handing [None] to [re] raises
    [TypeError], and an f-string prints it as [None]. *)
Definition receiver (v : option text) : result text :=
  match v with
  | Some s => Ok s
  | None => Raise AttributeError
  end.

Definition str_arg (v : option text) : result text :=
  match v with
  | Some s => Ok s
  | None => Raise TypeError
  end.

Definition fmt (v : option text) : text :=
  match v with
  | Some s => s
  | None => list_ascii_of_string "None"
  end.

(** ** Character classes *)

Definition code (c : ascii) : nat := nat_of_ascii c.

Definition between (lo hi n : nat) : bool := (lo <=? n) && (n <=? hi).

(** [c.isspace()], which is also what [\s] matches. *)
Definition is_space (c : ascii) : bool :=
  let n := code c in
  between 9 13 n || between 28 32 n || (n =? 133) || (n =? 160).

(** What [\d] matches. *)
Definition is_digit (c : ascii) : bool := between 48 57 (code c).

(** What [\w] matches. *)
Definition is_word (c : ascii) : bool :=
  let n := code c in
  between 48 57 n || between 65 90 n || (n =? 95) || between 97 122 n
  || (n =? 170) || between 178 179 n || (n =? 181) || between 185 186 n
  || between 188 190 n || between 192 214 n || between 216 246 n
  || between 248 255 n.

(** ** [str] methods *)

Definition upper_char (c : ascii) : ascii :=
  if between 97 122 (code c) then ascii_of_nat (code c - 32) else c.

Definition upper (s : text) : text := map upper_char s.

Fixpoint lstrip (s : text) : text :=
  match s with
  | c :: s' => if is_space c then lstrip s' else s
  | [] => []
  end.

Definition rstrip (s : text) : text := List.rev (lstrip (List.rev s)).

Definition strip (s : text) : text := rstrip (lstrip s).

(** [s.startswith(p)], returning what follows the prefix. *)
Fixpoint strip_prefix (p s : text) : option text :=
  match p with
  | [] => Some s
  | a :: p' =>
      match s with
      | c :: s' => if Ascii.eqb a c then strip_prefix p' s' else None
      | [] => None
      end
  end.

Definition startswith (p s : text) : bool :=
  match strip_prefix p s with Some _ => true | None => false end.

(** [sub in s]. *)
Fixpoint contains (sub s : text) : bool :=
  startswith sub s ||
  match s with
  | _ :: s' => contains sub s'
  | [] => false
  end.

(** [s.find(sub)], with [None] for -1. *)
Fixpoint find (sub s : text) : option nat :=
  if startswith sub s then Some 0
  else match s with
       | _ :: s' => option_map S (find sub s')
       | [] => None
       end.

(** [s.replace(old, new)] for a non-empty [old]: occurrences are taken
    left to right and do not overlap.  [skip] counts the characters of
    the occurrence just replaced that are still to be passed over. *)
Fixpoint replace_from (old new : text) (s : text) (skip : nat) : text :=
  match s with
  | [] => []
  | c :: s' =>
      match skip with
      | S k => replace_from old new s' k
      | 0 =>
          if startswith old s
          then new ++ replace_from old new s' (length old - 1)
          else c :: replace_from old new s' 0
      end
  end.

Definition replace (old new s : text) : text := replace_from old new s 0.

(** [str(n)] for a non-negative [int]. *)
Definition str_of_nat (n : nat) : text :=
  list_ascii_of_string (NilEmpty.string_of_uint (Nat.to_uint n)).

End Py.

(* ===================================================================== *)
(** * The fragment of Python's [re] used by the programs *)
(* ===================================================================== *)

Module Re.
Import Py.

(** ** Patterns *)

Inductive cclass : Type :=
| Space    (* \s *)
| Digit.   (* \d *)

Definition in_class (p : cclass) (c : ascii) : bool :=
  match p with
  | Space => is_space c
  | Digit => is_digit c
  end.

Inductive regex : Type :=
| Lit (l : text)                   (* a run of literal characters *)
| Dot                              (* .   any character but newline,
                                          any character under DOTALL *)
| Cls (p : cclass)                 (* \s  \d *)
| Cat (r1 r2 : regex)              (* r1 r2 *)
| Alt (r1 r2 : regex)              (* r1|r2, left alternative first *)
| Star (lazy : bool) (r : regex)   (* r*  (longest first) and
                                      r*? (shortest first) *)
| Grp (n : nat) (r : regex)        (* (r), capturing group number n *)
| Bnd.                             (* \b *)

Definition greedy := false.
Definition lazy := true.

(** [r+] *)
Definition Plus (r : regex) : regex := Cat r (Star greedy r).

(** The numbers of the capturing groups of a pattern, in order. *)
Fixpoint group_ids (r : regex) : list nat :=
  match r with
  | Cat r1 r2 | Alt r1 r2 => group_ids r1 ++ group_ids r2
  | Star _ r1 => group_ids r1
  | Grp n r1 => n :: group_ids r1
  | _ => []
  end.

(** ** The backtracking matcher *)

(** Captured groups: the last binding of a number wins. *)
Definition caps := list (nat * text).

Fixpoint group (n : nat) (cs : caps) : option text :=
  match cs with
  | [] => None
  | (m, g) :: cs' => if m =? n then Some g else group n cs'
  end.

(** A continuation receives the character before the cursor, the text
    from the cursor on, and the groups captured so far. *)
Definition cont := option ascii -> text -> caps -> option (text * caps).

Definition word_before (prev : option ascii) : bool :=
  match prev with Some c => is_word c | None => false end.

Definition word_after (s : text) : bool :=
  match s with c :: _ => is_word c | [] => false end.

(** Consume the literal [l]. *)
Fixpoint eat (l : text) (prev : option ascii) (s : text)
  : option (option ascii * text) :=
  match l with
  | [] => Some (prev, s)
  | a :: l' =>
      match s with
      | c :: s' => if Ascii.eqb a c then eat l' (Some c) s' else None
      | [] => None
      end
  end.

(** One repetition [r*] or [r*?], for a body matcher [body]: at most [n]
    further iterations, each of which has to consume something.  The
    lazy form tries the continuation before another iteration, the
    greedy form after. *)
Fixpoint star_loop
  (body : option ascii -> text -> caps -> cont -> option (text * caps))
  (lz : bool) (k : cont) (n : nat) (prev : option ascii) (s : text)
  (cs : caps) {struct n} : option (text * caps) :=
  match n with
  | 0 => k prev s cs
  | S n' =>
      let again (_ : unit) :=
        body prev s cs
             (fun p1 s1 cs1 =>
                if length s1 <? length s
                then star_loop body lz k n' p1 s1 cs1
                else None) in
      if lz then
        match k prev s cs with
        | Some x => Some x
        | None => again tt
        end
      else
        match again tt with
        | Some x => Some x
        | None => k prev s cs
        end
  end.

(** [rx dotall r prev s cs k]: match [r] at the front of [s], then go on
    with [k]; alternatives are tried in Python's priority order and the
    first overall success is returned.  The bound handed to [star_loop]
    is the length of the text where the repetition starts, which no
    number of consuming iterations can exceed. *)
Fixpoint rx (dotall : bool) (r : regex) (prev : option ascii) (s : text)
  (cs : caps) (k : cont) {struct r} : option (text * caps) :=
  match r with
  | Lit l =>
      match eat l prev s with
      | Some (prev', s') => k prev' s' cs
      | None => None
      end
  | Dot =>
      match s with
      | c :: s' =>
          if dotall || negb (Ascii.eqb c nl) then k (Some c) s' cs else None
      | [] => None
      end
  | Cls p =>
      match s with
      | c :: s' => if in_class p c then k (Some c) s' cs else None
      | [] => None
      end
  | Cat r1 r2 =>
      rx dotall r1 prev s cs (fun p1 s1 cs1 => rx dotall r2 p1 s1 cs1 k)
  | Alt r1 r2 =>
      match rx dotall r1 prev s cs k with
      | Some x => Some x
      | None => rx dotall r2 prev s cs k
      end
  | Star lz r1 => star_loop (rx dotall r1) lz k (length s) prev s cs
  | Grp n r1 =>
      rx dotall r1 prev s cs
         (fun p1 s1 cs1 =>
            k p1 s1 ((n, firstn (length s - length s1) s) :: cs1))
  | Bnd =>
      if xorb (word_before prev) (word_after s) then k prev s cs else None
  end.

(** ** Match objects and the scan *)

Record rmatch : Type := Match {
  m_len : nat;        (* number of characters matched *)
  m_text : text;      (* m.group(0) *)
  m_groups : caps
}.

(** One attempt at the cursor.  Under [must_advance] an empty match is
    refused and the matcher backtracks for a non-empty one. *)
Definition match_at (dotall : bool) (r : regex) (prev : option ascii)
  (s : text) (must_advance : bool) : option rmatch :=
  match rx dotall r prev s []
           (fun _ s' cs' =>
              if must_advance && (length s' =? length s) then None
              else Some (s', cs')) with
  | Some (s', cs') =>
      let n := length s - length s' in
      Some (Match n (firstn n s) cs')
  | None => None
  end.

(** The text cut into the characters no match covers and the matches. *)
Inductive item : Type :=
| Keep (c : ascii)
| Hit (m : rmatch).

(** The scan behind [finditer], [sub] and [split]: non-overlapping
    matches from left to right.  After a non-empty match the search
    resumes at its end ([skip] passes over the matched characters);
    after an empty match the same position is tried once more for a
    non-empty one. *)
Fixpoint scan (dotall : bool) (r : regex) (prev : option ascii) (s : text)
  (skip : nat) {struct s} : list item :=
  match skip with
  | S j =>
      match s with
      | c :: s' => scan dotall r (Some c) s' j
      | [] => []
      end
  | 0 =>
      let step_over (_ : unit) :=
        match s with
        | c :: s' => Keep c :: scan dotall r (Some c) s' 0
        | [] => []
        end in
      let resume (n : nat) :=
        match s with
        | c :: s' => scan dotall r (Some c) s' (n - 1)
        | [] => []
        end in
      match match_at dotall r prev s false with
      | None => step_over tt
      | Some m =>
          if m_len m =? 0 then
            match match_at dotall r prev s true with
            | Some m' => Hit m :: Hit m' :: resume (m_len m')
            | None => Hit m :: step_over tt
            end
          else Hit m :: resume (m_len m)
      end
  end.

Definition items (dotall : bool) (r : regex) (s : text) : list item :=
  scan dotall r None s 0.

Fixpoint count_hits (its : list item) : nat :=
  match its with
  | [] => 0
  | Keep _ :: its' => count_hits its'
  | Hit _ :: its' => S (count_hits its')
  end.

(** ** Replacement templates *)

Inductive titem : Type :=
| TChr (c : ascii)
| TGrp (n : nat).     (* \1 .. \9 *)

Definition is_ascii_letter (c : ascii) : bool :=
  between 65 90 (code c) || between 97 122 (code c).

Definition digit_next (s : text) : bool :=
  match s with d :: _ => is_digit d | [] => false end.

(** The escapes of a replacement template.  [\\] is a backslash; [\n],
    [\t], [\r], [\a], [\b], [\f], [\v] are control characters; [\1] ..
    [\9] refer to a group; a backslash before any other ASCII letter is
    an error; a backslash before any other character stays, together
    with that character.  Octal escapes, two-digit group numbers and
    [\g<...>] do not occur in the programs and are refused here. *)
Fixpoint parse_template (raw : text) : option (list titem) :=
  match raw with
  | [] => Some []
  | c :: raw' =>
      if Ascii.eqb c bsl then
        match raw' with
        | [] => None
        | e :: raw'' =>
            let rest := parse_template raw'' in
            if Ascii.eqb e bsl then option_map (cons (TChr bsl)) rest
            else if Ascii.eqb e "n" then option_map (cons (TChr nl)) rest
            else if Ascii.eqb e "t" then option_map (cons (TChr tab)) rest
            else if Ascii.eqb e "r" then
              option_map (cons (TChr "013"%char)) rest
            else if Ascii.eqb e "a" then
              option_map (cons (TChr "007"%char)) rest
            else if Ascii.eqb e "b" then
              option_map (cons (TChr "008"%char)) rest
            else if Ascii.eqb e "f" then
              option_map (cons (TChr "012"%char)) rest
            else if Ascii.eqb e "v" then
              option_map (cons (TChr "011"%char)) rest
            else if between 49 57 (code e) then
              if digit_next raw'' then None
              else option_map (cons (TGrp (code e - 48))) rest
            else if is_ascii_letter e || is_digit e then None
            else option_map (fun t => TChr bsl :: TChr e :: t) rest
        end
      else option_map (cons (TChr c)) (parse_template raw')
  end.

(** [m.expand(template)]; a group that took no part in the match
    expands to the empty string. *)
Definition expand_item (m : rmatch) (t : titem) : text :=
  match t with
  | TChr c => [c]
  | TGrp n => match group n (m_groups m) with Some g => g | None => [] end
  end.

Definition expand (tpl : list titem) (m : rmatch) : text :=
  flat_map (expand_item m) tpl.

(** ** [re.sub], [re.subn], [re.split], [re.search] *)

(** The text rebuilt from the scan with every match replaced by [f m]. *)
Fixpoint rebuild (f : rmatch -> text) (its : list item) : text :=
  match its with
  | [] => []
  | Keep c :: its' => c :: rebuild f its'
  | Hit m :: its' => f m ++ rebuild f its'
  end.

(** [re.subn(pattern, repl, s, flags)] for a template [repl]. *)
Definition subn (dotall : bool) (r : regex) (repl : text) (s : text)
  : result (text * nat) :=
  match parse_template repl with
  | Some tpl =>
      let its := items dotall r s in
      Ok (rebuild (expand tpl) its, count_hits its)
  | None => Raise ReError
  end.

(** [re.sub(pattern, repl, s, flags)] for a template [repl]. *)
Definition sub (dotall : bool) (r : regex) (repl : text) (s : text)
  : result text :=
  sn <- subn dotall r repl s ;; Ok (fst sn).

(** [re.sub(pattern, f, s, flags)] for a callable [f]. *)
Definition sub_with (dotall : bool) (r : regex)
  (f : rmatch -> result text) (s : text) : result text :=
  (fix go (its : list item) : result text :=
     match its with
     | [] => Ok []
     | Keep c :: its' => t <- go its' ;; Ok (c :: t)
     | Hit m :: its' => u <- f m ;; t <- go its' ;; Ok (u ++ t)
     end) (items dotall r s).

(** The scan as [re.split] sees it: the text before the first match,
    and every match with the text between it and the next one. *)
Fixpoint segments (its : list item) : text * list (rmatch * text) :=
  match its with
  | [] => ([], [])
  | Keep c :: its' => let (g, segs) := segments its' in (c :: g, segs)
  | Hit m :: its' => let (g, segs) := segments its' in ([], (m, g) :: segs)
  end.

(** What one match contributes to the result of [re.split]: its groups
    ([None] for a group that took no part) and the text that follows. *)
Definition split_entry (gids : list nat) (mg : rmatch * text)
  : list (option text) :=
  map (fun n => group n (m_groups (fst mg))) gids ++ [Some (snd mg)].

(** [re.split(pattern, s)]. *)
Definition split (r : regex) (s : text) : list (option text) :=
  let (g, segs) := segments (items false r s) in
  Some g :: flat_map (split_entry (group_ids r)) segs.

(** [re.search(pattern, s)]: the first entry of the scan that is a match. *)
Fixpoint first_hit (its : list item) : option rmatch :=
  match its with
  | [] => None
  | Keep _ :: its' => first_hit its'
  | Hit m :: _ => Some m
  end.

Definition search (r : regex) (s : text) : option rmatch :=
  first_hit (items false r s).

Definition found (r : regex) (s : text) : bool :=
  match search r s with Some _ => true | None => false end.

End Re.

(* ===================================================================== *)
(** * app.py *)
(* ===================================================================== *)

Module App.
Import Py Re.

(** ** The data model: a notebook is a list of cells *)

Record cell : Type := Cell {
  cell_type : text;
  source : list text;
  metadata : list (text * text);
  id : text
}.

Record notebook : Type := Notebook {
  cells : list cell;
  provenance : list text;      (* metadata.colab.provenance *)
  nbformat : nat;
  nbformat_minor : nat
}.

(** [{"cell_type": "markdown", "source": [src], "metadata": {}, "id": i}] *)
Definition markdown_cell (src : text) (i : text) : cell :=
  Cell (txt "markdown") [src] [] i.

(** ** The patterns *)

(** [\\end{document}.*] (compiled with DOTALL where it is used): in a
    pattern a brace that opens no repetition count is a literal. *)
Definition end_document : regex :=
  Cat (Lit (txt "\end{document}")) (Star greedy Dot).

(** [\\\[\s*(.*?)\s*\\\]] *)
Definition display_math : regex :=
  Cat (Lit (txt "\["))
 (Cat (Star greedy (Cls Space))
 (Cat (Grp 1 (Star lazy Dot))
 (Cat (Star greedy (Cls Space))
      (Lit (txt "\]"))))).

(** [\s+] *)
Definition spaces : regex := Plus (Cls Space).

(** [\\section\*{(\[.*?\])}] *)
Definition section_marker : regex :=
  Cat (Lit (txt "\section*{"))
 (Cat (Grp 1 (Cat (Lit (txt "[")) (Cat (Star lazy Dot) (Lit (txt "]")))))
      (Lit (txt "}"))).

(** [\\section\*{(\[atomic_.*?])}] *)
Definition atomic_marker : regex :=
  Cat (Lit (txt "\section*{"))
 (Cat (Grp 1 (Cat (Lit (txt "[atomic_"))
             (Cat (Star lazy Dot) (Lit (txt "]")))))
      (Lit (txt "}"))).

(** [\[SECTION_\d+\]] *)
Definition section_label : regex :=
  Cat (Lit (txt "[SECTION_")) (Cat (Plus (Cls Digit)) (Lit (txt "]"))).

(** [\b(PROMPT|RESPONSE)\b] *)
Definition prompt_response : regex :=
  Cat Bnd
 (Cat (Grp 1 (Alt (Lit (txt "PROMPT")) (Lit (txt "RESPONSE"))))
      Bnd).

(** ** transform_latex_equations *)

(** The nested [replace_equation]; [m.group(1)] is handed to [re.sub]. *)
Definition replace_equation (m : rmatch) : result text :=
  equation <- str_arg (group 1 (m_groups m)) ;;
  equation <- sub false spaces (txt " ") equation ;;
  let equation := strip equation in
  Ok (txt "\[ " ++ equation ++ txt " \]").

Definition transform_latex_equations (text0 : text) : result text :=
  sub_with true display_math replace_equation text0.

(** ** parse_input_to_notebook *)

Definition metadata_text : text :=
  txt "# Metadata" ++ [nl; nl] ++
  txt "**Topic:** - Mathematics" ++ [nl; nl] ++
  txt "**Subtopic:** - " ++ [nl; nl] ++
  txt "**Difficulty:** - " ++ [nl; nl] ++
  txt "**Explanation:** -  " ++ [nl; nl] ++
  txt "**Sections:** - " ++ [nl; nl] ++
  txt "**Prompt:** - " ++ [tab; nl].

Definition metadata_cell : cell :=
  markdown_cell metadata_text (txt "metadata_cell").

Definition separator (i : text) : cell := markdown_cell (txt "---") i.

Definition final_separator : cell := separator (txt "final_separator").

(** [re.sub(r'\\end{document}.*', '', s, flags=re.DOTALL)] *)
Definition cut_end_document (s : text) : result text :=
  sub true end_document [] s.

(** The body of the loop over the atomic parts of one section. *)
Definition atomic_body (atomic_parts : list (option text)) (i j : nat)
  (cs : list cell) : result (list cell) :=
  atomic_title <- get atomic_parts j ;;
  part <- get atomic_parts (j + 1) ;;
  part <- receiver part ;;
  let atomic_content := strip part in
  atomic_content <- cut_end_document atomic_content ;;
  atomic_content <-
    sub false display_math (txt "\\[\n\1\n\\]") atomic_content ;;
  let atomic_content := replace [nl] (txt "  " ++ [nl]) atomic_content in
  Ok (cs ++
      [markdown_cell
         (txt "**" ++ fmt atomic_title ++ txt "**" ++ [nl; nl]
          ++ atomic_content)
         (fmt atomic_title ++ txt "_" ++ str_of_nat i ++ txt "_"
          ++ str_of_nat j)]).

(** The body of the loop over the sections. *)
Definition section_body (sections : list (option text)) (i : nat)
  (cs : list cell) : result (list cell) :=
  section_title <- get sections i ;;
  part <- get sections (i + 1) ;;
  part <- receiver part ;;
  let section_content := strip part in
  title <- receiver section_title ;;
  let cs :=
    if found section_label (upper title) then
      cs ++ [separator (txt "separator_before_" ++ title)]
    else if found prompt_response (upper title) then
      cs ++ [separator (txt "separator_" ++ str_of_nat i)]
    else cs in
  section_content <- cut_end_document section_content ;;
  section_content <-
    (if contains (txt "RESPONSE") (upper title)
     then cut_end_document section_content
     else Ok section_content) ;;
  let cs :=
    cs ++ [markdown_cell
             (txt "**" ++ title ++ txt "**" ++ [nl; nl] ++ section_content)
             (txt "section_" ++ str_of_nat i)] in
  let atomic_parts := split atomic_marker section_content in
  if 1 <? length atomic_parts then
    for_each (range 1 (length atomic_parts) 2)
             (atomic_body atomic_parts i) cs
  else Ok cs.

(** The final clean-up of one source string. *)
Definition cleanup (s : text) : result text :=
  let s := replace [bsl; bsl] [bsl] s in
  cut_end_document s.

Definition cleanup_cell (c : cell) : result cell :=
  if list_eq_dec ascii_dec (cell_type c) (txt "markdown") then
    cleaned_source <- map_m cleanup (source c) ;;
    Ok (Cell (cell_type c) cleaned_source (metadata c) (id c))
  else Ok c.

Definition parse_input_to_notebook (text0 : text) : result notebook :=
  let cs := [metadata_cell] in
  text1 <- cut_end_document text0 ;;
  let sections := split section_marker text1 in
  cs <- for_each (range 1 (length sections) 2) (section_body sections) cs ;;
  let cs := cs ++ [final_separator] in
  cs <- map_m cleanup_cell cs ;;
  Ok (Notebook cs [] 4 5).

(** ** perform_substitutions *)

(** The pairs of a pattern and a replacement template, as listed. *)
Definition substitutions : list (regex * text) :=
  [ (Lit (txt "\\"), txt "\\newline");
    (Lit (txt "\frac"), txt "\\\\frac");
    (Lit (txt "\right"), txt "\\\\right");
    (Lit (txt "\rfloor"), txt "\\\\rfloor");
    (Lit (txt "\begin"), txt "\\\\begin");
    (Lit (txt "\theta"), txt "\\\\theta");
    (Lit (txt "\_"), txt "_") ].

Definition perform_substitutions (input_text : text) : result text :=
  for_each substitutions
           (fun '(old, new) output_text => sub false old new output_text)
           input_text.

(** ** escape_latex_delimiters_in_notebook *)

Definition delimiter_subs : list (regex * text) :=
  [ (Lit (txt "\("), txt "\\\(");
    (Lit (txt "\)"), txt "\\\)");
    (Lit (txt "\["), txt "\\\[");
    (Lit (txt "\]"), txt "\\\]") ].

Definition escape_text (s : text) : result text :=
  for_each delimiter_subs
           (fun '(old, new) t => sub false old new t) s.

Definition escape_cell (c : cell) : result cell :=
  if list_eq_dec ascii_dec (cell_type c) (txt "markdown") then
    src <- map_m escape_text (source c) ;;
    Ok (Cell (cell_type c) src (metadata c) (id c))
  else Ok c.

Definition escape_latex_delimiters_in_notebook (nb : notebook)
  : result notebook :=
  cs <- map_m escape_cell (cells nb) ;;
  Ok (Notebook cs (provenance nb) (nbformat nb) (nbformat_minor nb)).

(** ** extract_body_content *)

Definition extract_body_content (text0 : text) : text :=
  let text1 :=
    match find (txt "\begin{document}") text0 with
    | Some begin_pos =>
        skipn (begin_pos + length (txt "\begin{document}")) text0
    | None => text0
    end in
  let text2 :=
    match find (txt "\end{document}") text1 with
    | Some end_pos => firstn end_pos text1
    | None => text1
    end in
  strip text2.

(** ** The conversion behind the button *)

(** The steps of the handler up to [structured_notebook]; the body it
    extracts first is not used afterwards. *)
Definition structured_notebook (input_text : text) : result notebook :=
  let body_content := extract_body_content input_text in
  transformed_text <- transform_latex_equations input_text ;;
  output_text <- perform_substitutions transformed_text ;;
  parse_input_to_notebook output_text.

Definition final_notebook (input_text : text) : result notebook :=
  structured <- structured_notebook input_text ;;
  escape_latex_delimiters_in_notebook structured.

End App.

(* ===================================================================== *)
(** * app_dollar.py *)
(* ===================================================================== *)

Module AppDollar.
Import Py Re.

(** [(?:.|\n)*?] *)
Definition anything_lazy : regex := Star lazy (Alt Dot (Lit [nl])).

(** [\\\[((?:.|\n)*?)\\\]] *)
Definition display_brackets : regex :=
  Cat (Lit (txt "\[")) (Cat (Grp 1 anything_lazy) (Lit (txt "\]"))).

(** An environment name as the pattern it is once it has been pasted
    into the f-string: the name is not escaped, so a character followed
    by [*] is that character repeated any number of times. *)
Fixpoint name_pattern (env : text) : regex :=
  match env with
  | [] => Lit []
  | c :: env' =>
      match env' with
      | "*"%char :: env'' =>
          Cat (Star greedy (Lit [c])) (name_pattern env'')
      | _ => Cat (Lit [c]) (name_pattern env')
      end
  end.

(** [rf'\\begin\{{{env}\}}((?:.|\n)*?)\\end\{{{env}\}}'] *)
Definition env_pattern (env : text) : regex :=
  Cat (Lit (txt "\begin{"))
 (Cat (name_pattern env)
 (Cat (Lit (txt "}"))
 (Cat (Grp 1 anything_lazy)
 (Cat (Lit (txt "\end{"))
 (Cat (name_pattern env)
      (Lit (txt "}"))))))).

(** [\\\((.*?)\\\)] *)
Definition inline_parens : regex :=
  Cat (Lit (txt "\(")) (Cat (Grp 1 (Star lazy Dot)) (Lit (txt "\)"))).

(** [\\ensuremath\{(.*?)\}] *)
Definition ensuremath : regex :=
  Cat (Lit (txt "\ensuremath{")) (Cat (Grp 1 (Star lazy Dot)) (Lit (txt "}"))).

Definition display_envs : list text :=
  [ txt "equation*"; txt "equation";
    txt "align*"; txt "align";
    txt "gather*"; txt "gather";
    txt "multline*"; txt "multline" ].

(** The two variables of [convert_latex_delimiters] that the nested
    function updates through [nonlocal]. *)
Record locals : Type := Locals {
  current_text : text;
  conversion_count : nat
}.

(** The nested [convert_and_count]: its return value and the updated
    variables. *)
Definition convert_and_count (pattern : regex) (replacement : text)
  (dotall : bool) (st : locals) : result (text * locals) :=
  sn <- subn dotall pattern replacement (current_text st) ;;
  let (new_text, count) := sn in
  if 0 <? count
  then Ok (new_text, Locals new_text (conversion_count st + count))
  else Ok (new_text, st).

(** A call whose return value is dropped. *)
Definition call (pattern : regex) (replacement : text) (st : locals)
  : result locals :=
  r <- convert_and_count pattern replacement false st ;; Ok (snd r).

Definition convert_latex_delimiters (text0 : text) : result (text * nat) :=
  let st := Locals text0 0 in
  st <- call display_brackets (txt "$$\1$$") st ;;
  st <- for_each display_envs
          (fun env st => call (env_pattern env) (txt "$$\1$$") st) st ;;
  st <- call inline_parens (txt "$\1$") st ;;
  st <- call ensuremath (txt "$\1$") st ;;
  Ok (current_text st, conversion_count st).

End AppDollar.

(* ===================================================================== *)
(** * Definitions used by the statements and the proofs *)
(* ===================================================================== *)

Module Shape.
Import Py Re.

Definition is_some {A} (x : option A) : Prop := x <> None.

(** What [.] accepts. *)
Definition dot_ok (dotall : bool) (c : ascii) : bool :=
  dotall || negb (Ascii.eqb c nl).

(** [.*?] followed by [k], by recursion on the text: the continuation is
    tried first, and one more character is passed over only if it fails. *)
Fixpoint lazy_run (ok : ascii -> bool) (k : cont) (prev : option ascii)
  (s : text) (cs : caps) : option (text * caps) :=
  match k prev s cs with
  | Some x => Some x
  | None =>
      match s with
      | c :: s' => if ok c then lazy_run ok k (Some c) s' cs else None
      | [] => None
      end
  end.

(** [.*] followed by [k]: as many characters as possible first. *)
Fixpoint greedy_run (ok : ascii -> bool) (k : cont) (prev : option ascii)
  (s : text) (cs : caps) : option (text * caps) :=
  match s with
  | c :: s' =>
      if ok c then
        match greedy_run ok k (Some c) s' cs with
        | Some x => Some x
        | None => k prev s cs
        end
      else k prev s cs
  | [] => k prev s cs
  end.

(** The text before the first occurrence of [marker]. *)
Fixpoint before (marker s : text) : text :=
  if startswith marker s then []
  else match s with
       | c :: s' => c :: before marker s'
       | [] => []
       end.

(** Both section patterns are [\\section\*{(] opening [.*?])}] for a
    literal opening: [\[] at the top level and [\[atomic_] inside a
    section. *)
Definition marker (opening : text) : regex :=
  Cat (Lit (txt "\section*{"))
 (Cat (Grp 1 (Cat (Lit opening) (Cat (Star lazy Dot) (Lit (txt "]")))))
      (Lit (txt "}"))).

(** What remains to be matched once [.*?] stops: the two closing
    characters; [s1] is the text where the group started. *)
Definition marker_close (s1 : text) : cont :=
  fun p s cs =>
    match eat (txt "]") p s with
    | Some (pa, sa) =>
        match eat (txt "}") pa sa with
        | Some (_, sb) =>
            Some (sb, (1, firstn (length s1 - length sa) s1) :: cs)
        | None => None
        end
    | None => None
    end.

(** The matcher on a marker pattern, unfolded. *)
Definition marker_run (opening : text) (prev : option ascii) (s : text)
  : option (text * caps) :=
  match eat (txt "\section*{") prev s with
  | Some (p1, s1) =>
      match eat opening p1 s1 with
      | Some (p2, s2) => lazy_run (dot_ok false) (marker_close s1) p2 s2 []
      | None => None
      end
  | None => None
  end.

(** No attempt of [r] succeeds anywhere inside [g], whatever precedes. *)
Definition quiet (dotall : bool) (r : regex) (g : text) : Prop :=
  forall pre u prev, g = pre ++ u -> match_at dotall r prev u false = None.

Definition end_marker : text := txt "\end{document}".

(** What [cut_end_document] returns. *)
Definition cut (s : text) : text := before end_marker s.

(** What [cleanup] returns. *)
Definition clean (s : text) : text := cut (replace [bsl; bsl] [bsl] s).

Definition clean_cell (c : App.cell) : App.cell :=
  if list_eq_dec ascii_dec (App.cell_type c) (txt "markdown")
  then App.Cell (App.cell_type c) (map clean (App.source c))
                (App.metadata c) (App.id c)
  else c.

(** The label a match of a section pattern captured. *)
Definition label_of (m : rmatch) : text :=
  match group 1 (m_groups m) with Some g => g | None => [] end.

(** The sections of a scan from the pair number [a] on: the index of the
    label in the list [re.split] returns, the label, and the text up to
    the next marker. *)
Fixpoint indexed (a : nat) (segs : list (rmatch * text))
  : list (nat * text * text) :=
  match segs with
  | [] => []
  | (m, g) :: segs' => (1 + a * 2, label_of m, g) :: indexed (S a) segs'
  end.

(** The sections of an input text. *)
Definition labelled (text0 : text) : list (nat * text * text) :=
  indexed 0 (snd (segments (items false App.section_marker (cut text0)))).

(** The divider that precedes a section, if its label asks for one. *)
Definition dividers (i : nat) (title : text) : list App.cell :=
  if found App.section_label (upper title) then
    [App.separator (txt "separator_before_" ++ title)]
  else if found App.prompt_response (upper title) then
    [App.separator (txt "separator_" ++ str_of_nat i)]
  else [].

Definition section_cell (i : nat) (title content : text) : App.cell :=
  App.markdown_cell (txt "**" ++ title ++ txt "**" ++ [nl; nl] ++ content)
                    (txt "section_" ++ str_of_nat i).

(** The cells of a section when the atomic split finds nothing. *)
Definition plain_cells (e : nat * text * text) : list App.cell :=
  let '(i, title, g) := e in
  dividers i title ++ [section_cell i title (cut (strip g))].

(** Collapsing doubled backslashes, the first step of [cleanup]. *)
Definition halve : text -> text := replace [bsl; bsl] [bsl].

Definition starts_bsl (s : text) : bool :=
  match s with c :: _ => Ascii.eqb c bsl | [] => false end.

(** ** Escaping delimiters *)

Definition starts_in (D : list ascii) (s : text) : bool :=
  match s with
  | d :: _ => existsb (Ascii.eqb d) D
  | [] => false
  end.

(** One more backslash in front of every backslash that is followed by
    a character of [D]. *)
Fixpoint esc (D : list ascii) (s : text) : text :=
  match s with
  | [] => []
  | c :: s' =>
      if Ascii.eqb c bsl && starts_in D s'
      then bsl :: bsl :: esc D s'
      else c :: esc D s'
  end.

Definition delimiters : list ascii := txt "()[]".

Definition escape_delimiters (s : text) : text := esc delimiters s.

Definition escaped_cell (c : App.cell) : App.cell :=
  if list_eq_dec ascii_dec (App.cell_type c) (txt "markdown")
  then App.Cell (App.cell_type c) (map escape_delimiters (App.source c))
                (App.metadata c) (App.id c)
  else c.

(** ** Cell ids *)

(** The five forms of id that [parse_input_to_notebook] gives to the
    cells outside the atomic loop. *)
Inductive cell_id : Type :=
| IdMetadata
| IdFinal
| IdBefore (title : text)     (* separator_before_<title> *)
| IdSeparator (i : nat)       (* separator_<i> *)
| IdSection (i : nat).        (* section_<i> *)

Definition render (x : cell_id) : text :=
  match x with
  | IdMetadata => txt "metadata_cell"
  | IdFinal => txt "final_separator"
  | IdBefore title => txt "separator_before_" ++ title
  | IdSeparator i => txt "separator_" ++ str_of_nat i
  | IdSection i => txt "section_" ++ str_of_nat i
  end.

Definition has_section_shape (title : text) : bool :=
  found App.section_label (upper title).

Definition plain_ids (e : nat * text * text) : list cell_id :=
  let '(i, title, _) := e in
  (if has_section_shape title then [IdBefore title]
   else if found App.prompt_response (upper title) then [IdSeparator i]
   else [])
  ++ [IdSection i].

(** The labels of the input that have the shape [SECTION_<number>]. *)
Definition section_labels (text0 : text) : list text :=
  filter has_section_shape (map (fun e => snd (fst e)) (labelled text0)).

(** ** The passes of [convert_latex_delimiters] *)

(** The passes in the order of the calls. *)
Definition passes : list (regex * text) :=
  (AppDollar.display_brackets, txt "$$\1$$")
  :: map (fun env => (AppDollar.env_pattern env, txt "$$\1$$"))
         AppDollar.display_envs
  ++ [ (AppDollar.inline_parens, txt "$\1$");
       (AppDollar.ensuremath, txt "$\1$") ].

(** One pass on the text so far, adding its matches to the count. *)
Definition run_pass (p : regex * text) (st : text * nat)
  : result (text * nat) :=
  sn <- subn false (fst p) (snd p) (fst st) ;;
  Ok (fst sn, snd st + snd sn).

Definition run_passes (ps : list (regex * text)) (text0 : text)
  : result (text * nat) :=
  for_each ps run_pass (text0, 0).

(** The environment pass as the help text of the program describes it:
    [\begin{env}...\end{env}] with the name taken literally. *)
Definition literal_env_pattern (env : text) : regex :=
  Cat (Lit (txt "\begin{" ++ env ++ txt "}"))
 (Cat (Grp 1 AppDollar.anything_lazy)
      (Lit (txt "\end{" ++ env ++ txt "}"))).

Definition literal_passes : list (regex * text) :=
  (AppDollar.display_brackets, txt "$$\1$$")
  :: map (fun env => (literal_env_pattern env, txt "$$\1$$"))
         AppDollar.display_envs
  ++ [ (AppDollar.inline_parens, txt "$\1$");
       (AppDollar.ensuremath, txt "$\1$") ].

(** ** Inputs of the examples *)

Definition section_and_atomic : text :=
  txt "\section*{[SECTION_01]}" ++ [nl] ++ txt "Hello" ++ [nl]
  ++ txt "\section*{[atomic_a]}" ++ [nl] ++ txt "foo" ++ [nl]
  ++ txt "bar" ++ [nl] ++ txt "\end{document}".

(** The cells the specification expects for [section_and_atomic], with
    the three ids it leaves open. *)
Definition expected_cells (d s a : text) : list App.cell :=
  [ App.metadata_cell;
    App.separator d;
    App.markdown_cell (txt "**[SECTION_01]**" ++ [nl; nl]) s;
    App.markdown_cell
      (txt "**[atomic_a]**" ++ [nl; nl]
       ++ txt "foo  " ++ [nl] ++ txt "bar  " ++ [nl]) a;
    App.final_separator ].

Definition repeated_label : text :=
  txt "\section*{[SECTION_01]}a\section*{[SECTION_01]}b".

Definition atomic_prompt : text := txt "\section*{[atomic_a PROMPT]}x".

Definition inline_notebook : App.notebook :=
  App.Notebook [App.markdown_cell (txt "\(x\)") (txt "section_1")] [] 4 5.

Definition starred_equation : text := txt "\begin{equation*}x\end{equation*}".

(** ** Further predicates and functions of the statements *)

(** A text without a backslash. *)
Definition plain (s : text) : bool :=
  forallb (fun c => negb (Ascii.eqb c bsl)) s.

(** A text without a newline. *)
Definition one_line (s : text) : bool :=
  forallb (fun c => negb (Ascii.eqb c nl)) s.

(** Group [n] is bound by every match of the pattern. *)
Fixpoint binds (n : nat) (r : regex) : bool :=
  match r with
  | Cat r1 r2 => binds n r1 || binds n r2
  | Alt r1 r2 => binds n r1 && binds n r2
  | Grp m r1 => (m =? n) || binds n r1
  | _ => false
  end.

(** Every match of the scan has [P]. *)
Fixpoint all_hits (P : rmatch -> Prop) (its : list item) : Prop :=
  match its with
  | [] => True
  | Keep _ :: its' => all_hits P its'
  | Hit m :: its' => P m /\ all_hits P its'
  end.

(** One more backslash in front of every backslash that is followed by
    one of the words of [K]. *)
Definition starts_with_any (K : list text) (s : text) : bool :=
  existsb (fun w => startswith w s) K.

Fixpoint dbl (K : list text) (s : text) : text :=
  match s with
  | [] => []
  | c :: s' =>
      if Ascii.eqb c bsl && starts_with_any K s'
      then bsl :: bsl :: dbl K s'
      else c :: dbl K s'
  end.

(** The five macros that [perform_substitutions] escapes. *)
Definition escaped_macros : list text :=
  [ txt "theta"; txt "begin"; txt "rfloor"; txt "right"; txt "frac" ].

(** The backslash in front of an underscore removed. *)
Fixpoint und (s : text) : text :=
  match s with
  | [] => []
  | c :: s' =>
      if Ascii.eqb c bsl && startswith (txt "_") s'
      then und s'
      else c :: und s'
  end.

Definition begin_marker : text := txt "\begin{document}".

(** Some backslash of the text is followed by a character of [D]. *)
Fixpoint has_hit (D : list ascii) (s : text) : bool :=
  match s with
  | [] => false
  | c :: s' => (Ascii.eqb c bsl && starts_in D s') || has_hit D s'
  end.

(** One of the four delimiters occurs in the text. *)
Definition has_delimiter (s : text) : bool :=
  contains (txt "\(") s || contains (txt "\)") s
  || contains (txt "\[") s || contains (txt "\]") s.

(** The groups bound in [cs] are bound in [cs']. *)
Definition keeps (cs cs' : caps) : Prop :=
  forall n, group n cs <> None -> group n cs' <> None.

Definition is_section_id (c : App.cell) : bool :=
  startswith (txt "section_") (App.id c).

Definition is_section (x : cell_id) : bool :=
  match x with IdSection _ => true | _ => false end.

End Shape.

(* ===================================================================== *)
(** * Facts about the matcher and the scan *)
(* ===================================================================== *)

Module ReFacts.
Import Py Re Shape.

(** ** Literals *)

Lemma eat_sound l : forall prev s p s',
  eat l prev s = Some (p, s') -> s = l ++ s'.
Proof.
  induction l as [|a l IH]; intros prev s p s' H; simpl in H.
  - now inversion H.
  - destruct s as [|c s]; [discriminate|].
    destruct (Ascii.eqb a c) eqn:E; [|discriminate].
    apply Ascii.eqb_eq in E; subst c.
    simpl; f_equal; eauto.
Qed.

Lemma eat_complete l : forall prev s',
  exists p, eat l prev (l ++ s') = Some (p, s').
Proof.
  induction l as [|a l IH]; intros prev s'; simpl.
  - eauto.
  - rewrite Ascii.eqb_refl. apply IH.
Qed.

Lemma eat_strip_prefix l : forall prev s,
  option_map snd (eat l prev s) = strip_prefix l s.
Proof.
  induction l as [|a l IH]; intros prev s; simpl; [reflexivity|].
  destruct s as [|c s]; [reflexivity|].
  destruct (Ascii.eqb a c); [apply IH|reflexivity].
Qed.

Lemma strip_prefix_sound p : forall s s',
  strip_prefix p s = Some s' -> s = p ++ s'.
Proof.
  intros s s' H. rewrite <- (eat_strip_prefix p None) in H.
  destruct (eat p None s) as [[q t]|] eqn:E; [|discriminate].
  simpl in H; inversion H; subst. eapply eat_sound; eauto.
Qed.

Lemma strip_prefix_app p s' : strip_prefix p (p ++ s') = Some s'.
Proof.
  rewrite <- (eat_strip_prefix p None).
  destruct (eat_complete p None s') as [q ->]. reflexivity.
Qed.

Lemma startswith_true p s :
  startswith p s = true <-> exists s', s = p ++ s'.
Proof.
  unfold startswith. split.
  - destruct (strip_prefix p s) eqn:E; [|discriminate].
    intros _. eexists. eapply strip_prefix_sound; eauto.
  - intros [s' ->]. now rewrite strip_prefix_app.
Qed.

Lemma startswith_app p s rem :
  startswith p s = true -> startswith p (s ++ rem) = true.
Proof.
  rewrite !startswith_true. intros [s' ->].
  exists (s' ++ rem). now rewrite app_assoc.
Qed.

(** ** Repetitions of [.] *)

Lemma star_lazy_dot dotall k : forall s n prev cs,
  length s <= n ->
  star_loop (rx dotall Dot) lazy k n prev s cs
  = lazy_run (dot_ok dotall) k prev s cs.
Proof.
  induction s as [|c s IH]; intros n prev cs Hn.
  - destruct n; simpl; destruct (k prev [] cs); reflexivity.
  - destruct n; [simpl in Hn; lia|].
    simpl. destruct (k prev (c :: s) cs); [reflexivity|].
    fold (dot_ok dotall c). destruct (dot_ok dotall c); [|reflexivity].
    replace (length s <? S (length s)) with true
      by (symmetry; apply Nat.ltb_lt; lia).
    apply IH. simpl in Hn; lia.
Qed.

Lemma star_greedy_dot dotall k : forall s n prev cs,
  length s <= n ->
  star_loop (rx dotall Dot) greedy k n prev s cs
  = greedy_run (dot_ok dotall) k prev s cs.
Proof.
  induction s as [|c s IH]; intros n prev cs Hn.
  - destruct n; simpl; reflexivity.
  - destruct n; [simpl in Hn; lia|].
    simpl. fold (dot_ok dotall c). destruct (dot_ok dotall c); [|reflexivity].
    replace (length s <? S (length s)) with true
      by (symmetry; apply Nat.ltb_lt; lia).
    rewrite IH by (simpl in Hn; lia). reflexivity.
Qed.

Lemma lazy_run_now ok k prev s cs :
  is_some (k prev s cs) -> is_some (lazy_run ok k prev s cs).
Proof.
  unfold is_some. destruct s; simpl; destruct (k prev _ cs); congruence.
Qed.

(** A successful [.*?] hands over to its continuation somewhere, after
    characters that [.] accepts. *)
Lemma lazy_run_inv ok k : forall s prev cs x,
  lazy_run ok k prev s cs = Some x ->
  exists pre s2 p2,
    s = pre ++ s2 /\ forallb ok pre = true /\ k p2 s2 cs = Some x.
Proof.
  induction s as [|c s IH]; intros prev cs x H; simpl in H.
  - destruct (k prev [] cs) eqn:E; [|discriminate].
    inversion H; subst. exists [], [], prev. auto.
  - destruct (k prev (c :: s) cs) eqn:E.
    + inversion H; subst. exists [], (c :: s), prev. auto.
    + destruct (ok c) eqn:Ec; [|discriminate].
      destruct (IH _ _ _ H) as (pre & s2 & p2 & -> & Hpre & Hk).
      exists (c :: pre), s2, p2. simpl. rewrite Ec, Hpre. auto.
Qed.

(** If [.*?] succeeds, it still does on a longer text and with any
    continuation that succeeds wherever the first one did. *)
Lemma lazy_run_mono ok (k k' : cont) rem :
  (forall p s2 cs p' cs',
      is_some (k p s2 cs) -> is_some (k' p' (s2 ++ rem) cs')) ->
  forall s prev cs prev' cs',
    is_some (lazy_run ok k prev s cs) ->
    is_some (lazy_run ok k' prev' (s ++ rem) cs').
Proof.
  intros Hk. induction s as [|c s IH]; intros prev cs prev' cs' H.
  - apply lazy_run_now. apply (Hk prev [] cs).
    unfold is_some in *. simpl in H. destruct (k prev [] cs); congruence.
  - simpl in H. destruct (k prev (c :: s) cs) eqn:E.
    + apply lazy_run_now. apply (Hk prev (c :: s) cs).
      unfold is_some; congruence.
    + destruct (ok c) eqn:Ec; [|now elim H].
      specialize (IH _ _ (Some c) cs' H).
      unfold is_some in *. simpl.
      destruct (k' prev' (c :: s ++ rem) cs'); [congruence|].
      now rewrite Ec.
Qed.

(** Passing over one more accepted character keeps a success. *)
Lemma lazy_run_cons ok k c s prev cs :
  ok c = true ->
  is_some (lazy_run ok k (Some c) s cs) ->
  is_some (lazy_run ok k prev (c :: s) cs).
Proof.
  intros Hc H. unfold is_some in *. simpl.
  destruct (k prev (c :: s) cs); [congruence|]. now rewrite Hc.
Qed.

Lemma lazy_run_skip ok k : forall pre s prev cs,
  forallb ok pre = true ->
  (forall p, is_some (lazy_run ok k p s cs)) ->
  is_some (lazy_run ok k prev (pre ++ s) cs).
Proof.
  induction pre as [|c pre IH]; intros s prev cs Hpre H; [apply H|].
  simpl in Hpre. apply andb_true_iff in Hpre as [Hc Hpre].
  simpl. apply lazy_run_cons; [exact Hc|]. now apply IH.
Qed.

(** ** The two section patterns *)

Lemma marker_unfold opening prev s k :
  rx false (marker opening) prev s [] k
  = match eat (txt "\section*{") prev s with
    | Some (p1, s1) =>
        match eat opening p1 s1 with
        | Some (p2, s2) =>
            lazy_run (dot_ok false)
              (fun p s cs =>
                 match eat (txt "]") p s with
                 | Some (pa, sa) =>
                     match eat (txt "}") pa sa with
                     | Some (pb, sb) =>
                         k pb sb
                           ((1, firstn (length s1 - length sa) s1) :: cs)
                     | None => None
                     end
                 | None => None
                 end) p2 s2 []
        | None => None
        end
    | None => None
    end.
Proof.
  unfold marker. cbn [rx].
  destruct (eat (txt "\section*{") prev s) as [[p1 s1]|]; [|reflexivity].
  destruct (eat opening p1 s1) as [[p2 s2]|]; [|reflexivity].
  match goal with
  | |- star_loop _ lazy ?q ?n ?p ?t ?c = _ =>
      change (star_loop (rx false Dot) lazy q n p t c = 
              lazy_run (dot_ok false) q p t c)
  end.
  apply star_lazy_dot. lia.
Qed.

Lemma match_at_marker opening prev s :
  match_at false (marker opening) prev s false
  = match marker_run opening prev s with
    | Some (s', cs') =>
        Some (Match (length s - length s')
                    (firstn (length s - length s') s) cs')
    | None => None
    end.
Proof.
  unfold match_at. rewrite marker_unfold. reflexivity.
Qed.

Lemma marker_close_inv s1 p s cs x :
  marker_close s1 p s cs = Some x ->
  exists sb g, s = txt "]}" ++ sb /\ x = (sb, (1, g) :: cs).
Proof.
  unfold marker_close. intros H.
  destruct (eat (txt "]") p s) as [[pa sa]|] eqn:E1; [|discriminate].
  destruct (eat (txt "}") pa sa) as [[pb sb]|] eqn:E2; [|discriminate].
  apply eat_sound in E1, E2. subst. inversion H.
  exists sb. eexists. split; reflexivity.
Qed.

Lemma marker_close_some s1 p sb cs :
  is_some (marker_close s1 p (txt "]}" ++ sb) cs).
Proof.
  unfold marker_close, is_some. simpl. discriminate.
Qed.

Lemma marker_close_ext s1 s1' rem p s cs p' cs' :
  is_some (marker_close s1 p s cs) ->
  is_some (marker_close s1' p' (s ++ rem) cs').
Proof.
  intros H. destruct (marker_close s1 p s cs) as [x|] eqn:E; [|now elim H].
  apply marker_close_inv in E as (sb & g & -> & _).
  rewrite <- app_assoc. apply marker_close_some.
Qed.

(** A match of a marker pattern is still one when text is added behind,
    and does not depend on what precedes. *)
Lemma marker_run_ext opening prev prev' u rem :
  is_some (marker_run opening prev u) ->
  is_some (marker_run opening prev' (u ++ rem)).
Proof.
  unfold marker_run. intros H.
  destruct (eat (txt "\section*{") prev u) as [[p1 s1]|] eqn:E1;
    [|now elim H].
  destruct (eat opening p1 s1) as [[p2 s2]|] eqn:E2; [|now elim H].
  apply eat_sound in E1, E2. subst u s1.
  rewrite <- !app_assoc.
  destruct (eat_complete (txt "\section*{") prev' (opening ++ s2 ++ rem))
    as [q1 ->].
  destruct (eat_complete opening q1 (s2 ++ rem)) as [q2 ->].
  eapply lazy_run_mono; [|exact H].
  intros. eapply marker_close_ext; eauto.
Qed.

(** Where the atomic pattern matches, the top-level pattern does. *)
Lemma atomic_marker_is_marker prev prev' s :
  is_some (marker_run (txt "[atomic_") prev s) ->
  is_some (marker_run (txt "[") prev' s).
Proof.
  unfold marker_run. intros H.
  destruct (eat (txt "\section*{") prev s) as [[p1 s1]|] eqn:E1;
    [|now elim H].
  destruct (eat (txt "[atomic_") p1 s1) as [[p2 s2]|] eqn:E2; [|now elim H].
  apply eat_sound in E1, E2. subst s s1.
  destruct (eat_complete (txt "\section*{") prev' (txt "[atomic_" ++ s2))
    as [q1 ->].
  change (txt "[atomic_" ++ s2) with (txt "[" ++ txt "atomic_" ++ s2) at 1.
  destruct (eat_complete (txt "[") q1 (txt "atomic_" ++ s2)) as [q2 ->].
  apply lazy_run_skip; [reflexivity|]. intros p.
  rewrite <- (app_nil_r s2).
  eapply lazy_run_mono; [|exact H].
  intros. eapply marker_close_ext; eauto.
Qed.

(** A match of a marker pattern consumes something and binds group 1. *)
Lemma marker_run_inv opening prev s s' cs' :
  marker_run opening prev s = Some (s', cs') ->
  length s' < length s /\ exists g, cs' = [(1, g)].
Proof.
  unfold marker_run. intros H.
  destruct (eat (txt "\section*{") prev s) as [[p1 s1]|] eqn:E1;
    [|discriminate].
  destruct (eat opening p1 s1) as [[p2 s2]|] eqn:E2; [|discriminate].
  apply eat_sound in E1, E2. subst s s1.
  apply lazy_run_inv in H as (pre & t & p3 & -> & _ & H).
  apply marker_close_inv in H as (sb & g & -> & H). inversion H; subst.
  split; [|eauto].
  rewrite !length_app. simpl. lia.
Qed.

(** ** The scan *)

Lemma segments_keep c its :
  segments (Keep c :: its) = (c :: fst (segments its), snd (segments its)).
Proof. simpl. now destruct (segments its). Qed.

Lemma segments_hit m its :
  segments (Hit m :: its) = ([], (m, fst (segments its)) :: snd (segments its)).
Proof. simpl. now destruct (segments its). Qed.

Lemma segments_count its : length (snd (segments its)) = count_hits its.
Proof.
  induction its as [|[c|m] its IH];
    [reflexivity | rewrite segments_keep | rewrite segments_hit];
    simpl; now rewrite IH.
Qed.

Lemma match_at_len dotall r prev s must m :
  match_at dotall r prev s must = Some m -> m_len m <= length s.
Proof.
  unfold match_at. destruct (rx _ _ _ _ _ _) as [[s' cs']|]; [|discriminate].
  intros H. inversion H. simpl. lia.
Qed.

Lemma quiet_nil_iff dotall r :
  quiet dotall r [] <-> forall prev, match_at dotall r prev [] false = None.
Proof.
  unfold quiet. split.
  - intros H prev. now apply (H [] []).
  - intros H pre u prev E. symmetry in E. apply app_eq_nil in E as [_ ->].
    apply H.
Qed.

(** With no match anywhere, the scan keeps every character. *)
Lemma scan_quiet dotall r : forall s prev,
  quiet dotall r s -> scan dotall r prev s 0 = map Keep s.
Proof.
  induction s as [|c s IH]; intros prev Hq.
  - simpl. now rewrite (Hq [] [] prev).
  - cbn [scan]. rewrite (Hq [] (c :: s) prev) by reflexivity.
    simpl. f_equal. apply IH. intros pre u p E.
    apply (Hq (c :: pre) u p). now rewrite E.
Qed.

(** Without a match, [re.subn] counts none and changes nothing. *)
Lemma rebuild_no_hit dotall r f : forall s prev skip,
  count_hits (scan dotall r prev s skip) = 0 ->
  rebuild f (scan dotall r prev s skip) = skipn skip s.
Proof.
  induction s as [|c s IH]; intros prev skip H.
  - destruct skip; [|reflexivity]. cbn [scan] in *.
    destruct (match_at dotall r prev [] false) as [m|]; [|reflexivity].
    destruct (m_len m =? 0); [|discriminate].
    destruct (match_at dotall r prev [] true); discriminate.
  - destruct skip as [|j]; [|cbn [scan] in *; now apply IH].
    cbn [scan] in *.
    destruct (match_at dotall r prev (c :: s) false) as [m|].
    + destruct (m_len m =? 0); [|discriminate].
      destruct (match_at dotall r prev (c :: s) true); discriminate.
    + simpl in *. f_equal. now apply (IH _ 0).
Qed.

Section Scan.

Variable dotall : bool.
Variable r : regex.

(** The pattern matches no empty string; a match is still one when text
    is added behind it, whatever precedes; and every match has [P]. *)
Variable P : rmatch -> Prop.
Hypothesis nonempty : forall prev s m,
  match_at dotall r prev s false = Some m -> m_len m <> 0.
Hypothesis ext : forall prev prev' u rem,
  match_at dotall r prev (u ++ rem) false = None ->
  match_at dotall r prev' u false = None.
Hypothesis good : forall prev s m,
  match_at dotall r prev s false = Some m -> P m.

Lemma no_match_nil prev : match_at dotall r prev [] false = None.
Proof.
  destruct (match_at dotall r prev [] false) as [m|] eqn:E; [|reflexivity].
  pose proof (match_at_len _ _ _ _ _ E). apply nonempty in E.
  simpl in *. lia.
Qed.

Lemma quiet_nil : quiet dotall r [].
Proof. apply quiet_nil_iff. apply no_match_nil. Qed.

Lemma quiet_cons prev c g rem :
  match_at dotall r prev (c :: g ++ rem) false = None ->
  quiet dotall r g -> quiet dotall r (c :: g).
Proof.
  intros Hn Hq pre u p E. destruct pre as [|c' pre]; simpl in E.
  - subst u. apply (ext prev p (c :: g) rem). exact Hn.
  - inversion E; subst. now apply (Hq pre u p).
Qed.

(** A part of a quiet text is quiet. *)
Lemma quiet_part a g b :
  quiet dotall r (a ++ g ++ b) -> quiet dotall r g.
Proof.
  intros Hq pre u p ->. apply (ext p p u b).
  apply (Hq (a ++ pre) (u ++ b) p). now rewrite <- !app_assoc.
Qed.

(** The shape of a scan: every piece of text between two matches is a
    part of the input in which the pattern matches nowhere. *)
Lemma scan_segments : forall s prev skip,
  let sg := segments (scan dotall r prev s skip) in
  (exists rem, skipn skip s = fst sg ++ rem) /\
  quiet dotall r (fst sg) /\
  Forall (fun mg => P (fst mg) /\ quiet dotall r (snd mg)) (snd sg).
Proof.
  induction s as [|c s IH]; intros prev skip; cbv zeta.
  - destruct skip; cbn [scan].
    + rewrite no_match_nil. simpl.
      repeat split; [now exists []|apply quiet_nil|constructor].
    + simpl. repeat split; [now exists []|apply quiet_nil|constructor].
  - destruct skip as [|j]; [|cbn [scan]; apply IH].
    cbn [scan].
    destruct (match_at dotall r prev (c :: s) false) as [m|] eqn:E.
    + rewrite (proj2 (Nat.eqb_neq _ _) (nonempty _ _ E)).
      rewrite segments_hit.
      destruct (IH (Some c) (m_len m - 1)) as (_ & Hq & Hall).
      cbn [fst snd]. repeat split.
      * now exists (c :: s).
      * apply quiet_nil.
      * constructor; [|exact Hall]. split; [eapply good; eauto|exact Hq].
    + rewrite segments_keep.
      destruct (IH (Some c) 0) as ([rem Hrem] & Hq & Hall).
      cbn [fst snd]. simpl in Hrem. repeat split.
      * exists rem. simpl. now f_equal.
      * eapply quiet_cons; [|exact Hq]. rewrite <- Hrem. exact E.
      * exact Hall.
Qed.

(** [re.search] finds nothing exactly in the quiet texts. *)
Lemma first_hit_none_quiet : forall s prev,
  first_hit (scan dotall r prev s 0) = None -> quiet dotall r s.
Proof.
  induction s as [|c s IH]; intros prev H.
  - apply quiet_nil.
  - cbn [scan] in H.
    destruct (match_at dotall r prev (c :: s) false) as [m|] eqn:E.
    + destruct (m_len m =? 0); [|discriminate].
      destruct (match_at dotall r prev (c :: s) true); discriminate.
    + simpl in H. apply IH in H.
      eapply quiet_cons with (prev := prev) (rem := []); [|exact H].
      now rewrite app_nil_r.
Qed.

End Scan.

Lemma scan_skip_all dotall r : forall s prev,
  exists prev', scan dotall r prev s (length s) = scan dotall r prev' [] 0.
Proof.
  induction s as [|c s IH]; intros prev; [now exists prev|].
  simpl length. cbn [scan]. apply IH.
Qed.

Lemma rebuild_ext f g its :
  (forall m, f m = g m) -> rebuild f its = rebuild g its.
Proof.
  intros H. induction its as [|[c|m] its IH]; simpl; congruence.
Qed.

Lemma expand_literal new m : expand (map TChr new) m = new.
Proof.
  unfold expand. induction new as [|c new IH]; simpl; congruence.
Qed.

(** ** The marker patterns, as the scan needs them *)

Lemma marker_nonempty opening prev s m :
  match_at false (marker opening) prev s false = Some m -> m_len m <> 0.
Proof.
  rewrite match_at_marker.
  destruct (marker_run opening prev s) as [[s' cs']|] eqn:E; [|discriminate].
  apply marker_run_inv in E as [Hlen _].
  intros H. inversion H. simpl. lia.
Qed.

Lemma marker_ext opening prev prev' u rem :
  match_at false (marker opening) prev (u ++ rem) false = None ->
  match_at false (marker opening) prev' u false = None.
Proof.
  rewrite !match_at_marker. intros H.
  destruct (marker_run opening prev' u) as [[s' cs']|] eqn:E; [|reflexivity].
  assert (Hs : is_some (marker_run opening prev (u ++ rem))).
  { apply marker_run_ext with (prev := prev'). unfold is_some; congruence. }
  destruct (marker_run opening prev (u ++ rem)) as [[? ?]|];
    [discriminate|now elim Hs].
Qed.

Lemma marker_group opening prev s m :
  match_at false (marker opening) prev s false = Some m ->
  exists g, group 1 (m_groups m) = Some g.
Proof.
  rewrite match_at_marker.
  destruct (marker_run opening prev s) as [[s' cs']|] eqn:E; [|discriminate].
  apply marker_run_inv in E as [_ [g ->]].
  intros H. inversion H. simpl. eauto.
Qed.

(** A text in which the top-level pattern matches nowhere has no atomic
    marker either. *)
Lemma quiet_atomic g :
  quiet false (marker (txt "[")) g -> quiet false (marker (txt "[atomic_")) g.
Proof.
  intros Hq pre u prev E. specialize (Hq pre u prev E).
  rewrite match_at_marker in *.
  destruct (marker_run (txt "[atomic_") prev u) as [[s' cs']|] eqn:Ea;
    [|reflexivity].
  assert (Hs : is_some (marker_run (txt "[") prev u)).
  { apply atomic_marker_is_marker with (prev := prev).
    unfold is_some; congruence. }
  destruct (marker_run (txt "[") prev u) as [[? ?]|];
    [discriminate|now elim Hs].
Qed.

(** ** [\\end{document}.*] under DOTALL *)

Lemma greedy_run_all : forall s prev cs,
  greedy_run (dot_ok true) (fun _ s' cs' => Some (s', cs')) prev s cs
  = Some ([], cs).
Proof.
  induction s as [|c s IH]; intros prev cs; simpl; [reflexivity|].
  now rewrite IH.
Qed.

(** The pattern matches where the marker starts, and then to the end. *)
Lemma match_at_end_document prev s :
  match_at true (Cat (Lit end_marker) (Star greedy Dot)) prev s false
  = if startswith end_marker s then Some (Match (length s) s []) else None.
Proof.
  unfold match_at, startswith. cbn [rx andb].
  rewrite <- (eat_strip_prefix end_marker prev).
  destruct (eat end_marker prev s) as [[p1 s1]|] eqn:E; [|reflexivity].
  match goal with
  | |- context [star_loop _ greedy ?q ?n ?p ?t ?c] =>
      change (star_loop _ greedy q n p t c)
        with (star_loop (rx true Dot) greedy q n p t c)
  end.
  rewrite star_greedy_dot by lia. rewrite greedy_run_all.
  simpl. rewrite Nat.sub_0_r, firstn_all. reflexivity.
Qed.

Lemma before_prefix marker : forall s, exists rem, s = before marker s ++ rem.
Proof.
  induction s as [|c s [rem IH]]; simpl.
  - destruct (startswith marker []); now exists [].
  - destruct (startswith marker (c :: s)); [now exists (c :: s)|].
    exists rem. simpl. now f_equal.
Qed.

(** Cutting at the marker is what the substitution does. *)
Lemma rebuild_end_document f : forall s prev,
  (forall m, f m = []) ->
  rebuild f (scan true (Cat (Lit end_marker) (Star greedy Dot)) prev s 0)
  = before end_marker s.
Proof.
  intros s prev Hf. revert prev.
  induction s as [|c s IH]; intros prev.
  - cbn [scan]. rewrite match_at_end_document. reflexivity.
  - cbn [scan]. rewrite match_at_end_document. cbn [before].
    destruct (startswith end_marker (c :: s)).
    + cbn [m_len length Nat.eqb]. simpl Nat.sub. rewrite Nat.sub_0_r.
      destruct (scan_skip_all true (Cat (Lit end_marker) (Star greedy Dot))
                              s (Some c)) as [p' ->].
      cbn [scan]. rewrite match_at_end_document. simpl. now rewrite Hf.
    + simpl. f_equal. apply IH.
Qed.

(** No marker starts inside the text before the first marker. *)
Lemma before_clean marker : marker <> [] -> forall s pre u,
  before marker s = pre ++ u -> startswith marker u = false.
Proof.
  intros Hm. induction s as [|c s IH]; intros pre u E.
  - assert (pre ++ u = []) as Hnil.
    { simpl in E. destruct (startswith marker []); now symmetry. }
    apply app_eq_nil in Hnil as [_ ->].
    destruct marker; [congruence|reflexivity].
  - simpl in E. destruct (startswith marker (c :: s)) eqn:Es.
    + symmetry in E. apply app_eq_nil in E as [_ ->].
      destruct marker; [congruence|reflexivity].
    + destruct pre as [|c' pre]; simpl in E.
      * subst u. destruct (startswith marker (c :: before marker s)) eqn:Eu;
          [|reflexivity].
        destruct (before_prefix marker s) as [rem Hrem].
        apply startswith_app with (rem := rem) in Eu.
        simpl in Eu. rewrite <- Hrem in Eu. congruence.
      * inversion E; subst. eapply IH; eauto.
Qed.

Lemma before_fixed marker : forall s,
  (forall pre u, s = pre ++ u -> startswith marker u = false) ->
  before marker s = s.
Proof.
  induction s as [|c s IH]; intros H; simpl.
  - now destruct (startswith marker []).
  - rewrite (H [] (c :: s) eq_refl). f_equal. apply IH.
    intros pre u E. apply (H (c :: pre) u). now rewrite E.
Qed.

Lemma before_idem marker s :
  marker <> [] -> before marker (before marker s) = before marker s.
Proof.
  intros Hm. apply before_fixed. intros pre u E.
  eapply before_clean; eauto.
Qed.

(** ** Literal patterns: [re.sub] is [str.replace] *)

Lemma match_at_lit dotall old prev s :
  match_at dotall (Lit old) prev s false
  = if startswith old s
    then Some (Match (length old) (firstn (length old) s) [])
    else None.
Proof.
  unfold match_at, startswith. cbn [rx andb].
  rewrite <- (eat_strip_prefix old prev).
  destruct (eat old prev s) as [[p1 s1]|] eqn:E; [|reflexivity].
  apply eat_sound in E. subst s. simpl.
  rewrite length_app.
  now replace (length old + length s1 - length s1) with (length old) by lia.
Qed.

Lemma rebuild_lit dotall old new f :
  old <> [] -> (forall m, f m = new) ->
  forall s prev skip,
    rebuild f (scan dotall (Lit old) prev s skip)
    = replace_from old new s skip.
Proof.
  intros Hold Hf. induction s as [|c s IH]; intros prev skip.
  - destruct skip; cbn [scan]; [|reflexivity].
    rewrite match_at_lit.
    destruct old; [congruence|reflexivity].
  - destruct skip as [|j]; cbn [scan replace_from]; [|apply IH].
    rewrite match_at_lit.
    destruct (startswith old (c :: s)).
    + cbn [m_len].
      destruct (length old =? 0) eqn:E0.
      { apply Nat.eqb_eq in E0. destruct old; [congruence|discriminate]. }
      simpl. rewrite Hf, IH. reflexivity.
    + simpl. f_equal. apply IH.
Qed.

Lemma sub_lit dotall old raw new s :
  old <> [] -> parse_template raw = Some (map TChr new) ->
  sub dotall (Lit old) raw s = Ok (replace old new s).
Proof.
  intros Hold Hraw. unfold sub, subn. rewrite Hraw. simpl.
  f_equal. apply rebuild_lit; [exact Hold|]. apply expand_literal.
Qed.

(** ** [str.strip] returns a part of the string *)

Lemma lstrip_suffix : forall s, exists a, s = a ++ lstrip s.
Proof.
  induction s as [|c s [a IH]]; [now exists []|].
  simpl. destruct (is_space c); [|now exists []].
  exists (c :: a). simpl. now f_equal.
Qed.

Lemma strip_part s : exists a b, s = a ++ strip s ++ b.
Proof.
  unfold strip, rstrip.
  destruct (lstrip_suffix s) as [a Ha].
  destruct (lstrip_suffix (rev (lstrip s))) as [b Hb].
  exists a, (rev b). rewrite <- rev_app_distr, <- Hb, rev_involutive.
  exact Ha.
Qed.

End ReFacts.

(* ===================================================================== *)
(** * Facts about the string methods *)
(* ===================================================================== *)

Module PyFacts.
Import Py Re Shape ReFacts.

#[local] Arguments Ascii.eqb : simpl never.

Lemma list_ind_len {A} (P : list A -> Prop) :
  (forall s, (forall t, length t < length s -> P t) -> P s) ->
  forall s, P s.
Proof.
  intros H s. remember (length s) as n eqn:E.
  revert s E. induction n as [n IH] using lt_wf_ind.
  intros s ->. apply H. intros t Ht. now apply (IH (length t)).
Qed.

(** ** [in] *)

Lemma contains_startswith p s : contains p s = false -> startswith p s = false.
Proof.
  destruct s; simpl; intros H; now apply orb_false_iff in H as [H _].
Qed.

Lemma contains_prefix p : forall x rem,
  contains p (x ++ rem) = false -> contains p x = false.
Proof.
  induction x as [|c x IH]; intros rem H.
  - simpl. rewrite orb_false_r.
    apply contains_startswith in H.
    destruct (startswith p []) eqn:E; [|reflexivity].
    apply startswith_app with (rem := rem) in E. simpl in *. congruence.
  - simpl in *. apply orb_false_iff in H as [H1 H2].
    apply orb_false_iff. split; [|eapply IH; eauto].
    destruct (startswith p (c :: x)) eqn:E; [|reflexivity].
    apply startswith_app with (rem := rem) in E. simpl in E. congruence.
Qed.

(** ** [replace] *)

Lemma replace_absent old new : forall s,
  contains old s = false -> replace old new s = s.
Proof.
  unfold replace. induction s as [|c s IH]; intros H; [reflexivity|].
  simpl in H. apply orb_false_iff in H as [H1 H2].
  cbn [replace_from]. rewrite H1. f_equal. now apply IH.
Qed.

Lemma halve_hit s : halve (bsl :: bsl :: s) = bsl :: halve s.
Proof. reflexivity. Qed.

Lemma halve_miss c s :
  startswith [bsl; bsl] (c :: s) = false -> halve (c :: s) = c :: halve s.
Proof.
  intros H. unfold halve, replace. cbn [replace_from]. now rewrite H.
Qed.

Lemma startswith_bsl2 s :
  startswith [bsl; bsl] s = starts_bsl s && starts_bsl (tl s).
Proof.
  destruct s as [|c [|d s]]; simpl; try reflexivity.
  - unfold startswith. simpl. rewrite (Ascii.eqb_sym c).
    now destruct (Ascii.eqb bsl c).
  - unfold startswith. simpl. rewrite (Ascii.eqb_sym c), (Ascii.eqb_sym d).
    destruct (Ascii.eqb bsl c); [|reflexivity].
    now destruct (Ascii.eqb bsl d).
Qed.

Lemma startswith_bsl3 s :
  startswith [bsl; bsl; bsl] s
  = starts_bsl s && starts_bsl (tl s) && starts_bsl (tl (tl s)).
Proof.
  destruct s as [|c [|d [|e s]]]; unfold startswith; simpl;
    rewrite ?(Ascii.eqb_sym c), ?(Ascii.eqb_sym d), ?(Ascii.eqb_sym e);
    repeat match goal with
           | |- context [Ascii.eqb bsl ?x] => destruct (Ascii.eqb bsl x)
           end; reflexivity.
Qed.

Lemma starts_bsl_halve s : starts_bsl (halve s) = starts_bsl s.
Proof.
  destruct s as [|c s]; [reflexivity|].
  destruct (startswith [bsl; bsl] (c :: s)) eqn:E.
  - rewrite startswith_bsl2 in E. apply andb_true_iff in E as [Ec Ed].
    simpl in Ec, Ed. apply Ascii.eqb_eq in Ec. subst c.
    destruct s as [|d s]; [discriminate|].
    simpl in Ed. apply Ascii.eqb_eq in Ed. subst d.
    now rewrite halve_hit.
  - now rewrite halve_miss.
Qed.

(** Without three backslashes in a row, nothing is left to collapse
    after one round. *)
Lemma halve_once : forall s,
  contains [bsl; bsl; bsl] s = false -> contains [bsl; bsl] (halve s) = false.
Proof.
  induction s as [s IH] using list_ind_len. intros H.
  destruct s as [|c s]; [reflexivity|].
  simpl in H. apply orb_false_iff in H as [H3 Hrest].
  destruct (startswith [bsl; bsl] (c :: s)) eqn:E.
  - pose proof E as E2. rewrite startswith_bsl2 in E2.
    apply andb_true_iff in E2 as [Ec Ed]. simpl in Ec, Ed.
    apply Ascii.eqb_eq in Ec. subst c.
    destruct s as [|d s]; [discriminate|].
    simpl in Ed. apply Ascii.eqb_eq in Ed. subst d.
    rewrite startswith_bsl3 in H3. simpl in H3.
    rewrite halve_hit. simpl. apply orb_false_iff. split.
    + rewrite startswith_bsl2. simpl. now rewrite starts_bsl_halve.
    + apply IH; [simpl; lia|].
      simpl in Hrest. now apply orb_false_iff in Hrest as [_ Hrest].
  - rewrite halve_miss by exact E. simpl. apply orb_false_iff. split.
    + rewrite startswith_bsl2 in *. simpl in *.
      now rewrite starts_bsl_halve.
    + apply IH; [simpl; lia|exact Hrest].
Qed.

(** ** The escaping of delimiters, one literal at a time *)

Lemma esc_head D s : hd_error (esc D s) = hd_error s.
Proof.
  destruct s as [|c s]; [reflexivity|]. simpl.
  destruct (Ascii.eqb c bsl && starts_in D s) eqn:E; [|reflexivity].
  apply andb_true_iff in E as [E _]. apply Ascii.eqb_eq in E. now subst.
Qed.

Lemma starts_in_head D s t :
  hd_error s = hd_error t -> starts_in D s = starts_in D t.
Proof. destruct s, t; simpl; congruence. Qed.

Lemma esc_ext D D' :
  (forall d, existsb (Ascii.eqb d) D = existsb (Ascii.eqb d) D') ->
  forall s, esc D s = esc D' s.
Proof.
  intros H. induction s as [|c s IH]; [reflexivity|].
  simpl. rewrite IH.
  replace (starts_in D' s) with (starts_in D s);
    [reflexivity|destruct s; simpl; auto].
Qed.

(** One literal substitution escapes one delimiter. *)
Lemma replace_esc x : x <> bsl ->
  forall s, replace [bsl; x] [bsl; bsl; x] s = esc [x] s.
Proof.
  intros Hx. assert (Ex : Ascii.eqb x bsl = false) by now apply Ascii.eqb_neq.
  induction s as [s IH] using list_ind_len.
  destruct s as [|c s]; [reflexivity|].
  unfold replace. cbn [replace_from esc].
  destruct (startswith [bsl; x] (c :: s)) eqn:E.
  - apply startswith_true in E as [s' E]. inversion E; subst c s.
    cbn [starts_in existsb app length Nat.sub replace_from esc].
    rewrite !Ascii.eqb_refl, Ex. cbn [andb orb starts_in].
    do 3 f_equal. apply IH. simpl. lia.
  - destruct (Ascii.eqb c bsl && starts_in [x] s) eqn:Es.
    + apply andb_true_iff in Es as [Ec Es].
      apply Ascii.eqb_eq in Ec. subst c.
      destruct s as [|d s]; [discriminate|]. simpl in Es.
      rewrite orb_false_r in Es. apply Ascii.eqb_eq in Es. subst d.
      unfold startswith in E. simpl in E. now rewrite !Ascii.eqb_refl in E.
    + f_equal. apply IH. simpl. lia.
Qed.

Lemma esc_bsl_in D s :
  starts_in D s = true -> esc D (bsl :: s) = bsl :: bsl :: esc D s.
Proof. intros H. cbn [esc]. now rewrite Ascii.eqb_refl, H. Qed.

Lemma esc_bsl_out D s :
  starts_in D s = false -> esc D (bsl :: s) = bsl :: esc D s.
Proof. intros H. cbn [esc]. now rewrite Ascii.eqb_refl, H. Qed.

Lemma esc_other D c s :
  Ascii.eqb c bsl = false -> esc D (c :: s) = c :: esc D s.
Proof. intros H. cbn [esc]. now rewrite H. Qed.

Lemma starts_in_esc D' D s : starts_in D' (esc D s) = starts_in D' s.
Proof. apply starts_in_head, esc_head. Qed.

Lemma starts_in_cons x D s :
  starts_in (x :: D) s = starts_in [x] s || starts_in D s.
Proof. destruct s; simpl; [reflexivity|]. now rewrite orb_false_r. Qed.

(** Escaping one more delimiter on top of those already escaped. *)
Lemma esc_compose x D :
  x <> bsl -> existsb (Ascii.eqb x) D = false ->
  existsb (Ascii.eqb bsl) D = false ->
  forall s, esc [x] (esc D s) = esc (x :: D) s.
Proof.
  intros Hx HxD HbD.
  assert (Ex : starts_in [x] [bsl] = false).
  { simpl. rewrite orb_false_r. apply Ascii.eqb_neq. congruence. }
  induction s as [|c s IH]; [reflexivity|].
  destruct (Ascii.eqb c bsl) eqn:Ec.
  - apply Ascii.eqb_eq in Ec. subst c.
    destruct (starts_in D s) eqn:ED.
    + rewrite (esc_bsl_in D s ED).
      rewrite (esc_bsl_in (x :: D) s)
        by (now rewrite starts_in_cons, ED, orb_true_r).
      rewrite esc_bsl_out by exact Ex.
      rewrite esc_bsl_out; [now rewrite IH|].
      rewrite starts_in_esc.
      destruct s as [|d s]; [reflexivity|]. simpl in *.
      rewrite orb_false_r. apply Ascii.eqb_neq. intros ->. congruence.
    + rewrite (esc_bsl_out D s ED).
      destruct (starts_in [x] s) eqn:Exs.
      * rewrite esc_bsl_in by (now rewrite starts_in_esc).
        rewrite (esc_bsl_in (x :: D) s)
          by (now rewrite starts_in_cons, Exs).
        now rewrite IH.
      * rewrite esc_bsl_out by (now rewrite starts_in_esc).
        rewrite (esc_bsl_out (x :: D) s)
          by (now rewrite starts_in_cons, Exs, ED).
        now rewrite IH.
  - rewrite !esc_other by exact Ec. now rewrite IH.
Qed.

End PyFacts.

(* ===================================================================== *)
(** * Facts about app.py *)
(* ===================================================================== *)

Module AppFacts.
Import Py Re Shape ReFacts PyFacts App.

Lemma cut_end_document_ok s : cut_end_document s = Ok (cut s).
Proof.
  unfold cut_end_document, sub, subn. simpl parse_template. cbn [bind fst].
  f_equal. apply rebuild_end_document. reflexivity.
Qed.

Lemma cut_idem s : cut (cut s) = cut s.
Proof. apply before_idem. discriminate. Qed.

Lemma cut_prefix s : exists rem, s = cut s ++ rem.
Proof. apply before_prefix. Qed.

Lemma cleanup_ok s : cleanup s = Ok (clean s).
Proof. unfold cleanup. apply cut_end_document_ok. Qed.

Lemma map_m_ok {A B} (f : A -> result B) (g : A -> B) :
  (forall x, f x = Ok (g x)) -> forall xs, map_m f xs = Ok (map g xs).
Proof.
  intros H. induction xs as [|x xs IH]; simpl; [reflexivity|].
  now rewrite H, IH.
Qed.

Lemma cleanup_cell_ok c : cleanup_cell c = Ok (clean_cell c).
Proof.
  unfold cleanup_cell, clean_cell.
  destruct (list_eq_dec ascii_dec (cell_type c) (txt "markdown"));
    [|reflexivity].
  now rewrite (map_m_ok cleanup clean cleanup_ok).
Qed.

(** ** The list [re.split] returns for a pattern with one group *)

Lemma split_one_group r s :
  group_ids r = [1] ->
  split r s
  = Some (fst (segments (items false r s)))
    :: flat_map (split_entry [1]) (snd (segments (items false r s))).
Proof.
  intros H. unfold split. rewrite H.
  now destruct (segments (items false r s)).
Qed.

Lemma length_entries segs :
  length (flat_map (split_entry [1]) segs) = 2 * length segs.
Proof.
  induction segs as [|mg segs IH]; simpl; [reflexivity|]. rewrite IH. lia.
Qed.

Lemma range_pairs n :
  range 1 (1 + 2 * n) 2 = map (fun k => 1 + k * 2) (seq 0 n).
Proof.
  unfold range. do 2 f_equal.
  symmetry. apply Nat.div_unique with (r := 1); lia.
Qed.

Lemma segments_keep_all s : segments (map Keep s) = (s, []).
Proof.
  induction s as [|c s IH]; [reflexivity|].
  simpl map. now rewrite segments_keep, IH.
Qed.

Lemma split_quiet r s : quiet false r s -> split r s = [Some s].
Proof.
  intros Hq. unfold split, items. rewrite scan_quiet by exact Hq.
  now rewrite segments_keep_all.
Qed.

Lemma section_marker_shape : section_marker = marker (txt "[").
Proof. reflexivity. Qed.

Lemma atomic_marker_shape : atomic_marker = marker (txt "[atomic_").
Proof. reflexivity. Qed.

(** The content of a section holds no atomic marker: it is a part of a
    text in which the top-level pattern matches nowhere. *)
Lemma content_quiet g :
  quiet false section_marker g ->
  quiet false atomic_marker (cut (strip g)).
Proof.
  intros Hq. rewrite atomic_marker_shape. apply quiet_atomic.
  rewrite section_marker_shape in Hq.
  destruct (strip_part g) as (a & b & Hg).
  destruct (cut_prefix (strip g)) as [rem Hrem].
  apply (@quiet_part false (marker (txt "[")) (@marker_ext (txt "["))
           a (cut (strip g)) (rem ++ b)).
  rewrite (app_assoc (cut (strip g)) rem b), <- Hrem, <- Hg. exact Hq.
Qed.

Lemma atomic_split_single g :
  quiet false section_marker g ->
  split atomic_marker (cut (strip g)) = [Some (cut (strip g))].
Proof. intros Hq. apply split_quiet. now apply content_quiet. Qed.

(** One turn of the section loop on a section that the top-level split
    produced. *)
Lemma section_body_plain sections i title g cs :
  nth_error sections i = Some (Some title) ->
  nth_error sections (i + 1) = Some (Some g) ->
  quiet false section_marker g ->
  section_body sections i cs = Ok (cs ++ plain_cells (i, title, g)).
Proof.
  intros Hi Hg Hq. unfold section_body, get. rewrite Hi, Hg.
  cbn [bind receiver]. rewrite cut_end_document_ok. cbn [bind].
  assert (Hc : (if contains (txt "RESPONSE") (upper title)
                then cut_end_document (cut (strip g))
                else Ok (cut (strip g))) = Ok (cut (strip g))).
  { destruct (contains _ _); [|reflexivity].
    now rewrite cut_end_document_ok, cut_idem. }
  rewrite Hc. cbn [bind].
  rewrite atomic_split_single by exact Hq. cbn [length Nat.ltb Nat.leb].
  unfold plain_cells, dividers, section_cell. f_equal.
  destruct (found section_label (upper title));
    [|destruct (found prompt_response (upper title))];
    now rewrite <- ?app_assoc.
Qed.

(** The whole section loop. *)
Lemma section_loop : forall segs pre a cs,
  length pre = 1 + a * 2 ->
  Forall (fun mg : rmatch * text =>
            (exists l, group 1 (m_groups (fst mg)) = Some l) /\
            quiet false section_marker (snd mg)) segs ->
  for_each (map (fun k => 1 + k * 2) (seq a (length segs)))
           (section_body (pre ++ flat_map (split_entry [1]) segs)) cs
  = Ok (cs ++ flat_map plain_cells (indexed a segs)).
Proof.
  induction segs as [|[m g] segs IH]; intros pre a cs Hpre Hall.
  - simpl. now rewrite app_nil_r.
  - inversion Hall as [|? ? [[l Hl] Hq] Hall']; subst.
    cbn [fst snd] in Hl, Hq.
    cbn [length seq map for_each].
    rewrite section_body_plain with (title := l) (g := g).
    + cbn [bind].
      replace (pre ++ flat_map (split_entry [1]) ((m, g) :: segs))
        with ((pre ++ [Some l; Some g]) ++ flat_map (split_entry [1]) segs).
      * rewrite IH; [| rewrite length_app; simpl; lia | exact Hall'].
        cbn [indexed flat_map]. unfold label_of. rewrite Hl.
        now rewrite <- app_assoc.
      * rewrite <- app_assoc. f_equal. cbn [flat_map].
        unfold split_entry at 2. cbn [map fst snd]. now rewrite Hl.
    + rewrite <- Hpre, nth_error_app2 by lia. rewrite Nat.sub_diag.
      cbn [flat_map]. unfold split_entry at 1. cbn [map fst snd].
      now rewrite Hl.
    + rewrite <- Hpre, nth_error_app2 by lia.
      replace (length pre + 1 - length pre) with 1 by lia.
      reflexivity.
    + exact Hq.
Qed.

(** The shape of the scan by the top-level pattern. *)
Lemma section_segments s :
  Forall (fun mg : rmatch * text =>
            (exists l, group 1 (m_groups (fst mg)) = Some l) /\
            quiet false section_marker (snd mg))
         (snd (segments (items false section_marker s))).
Proof.
  rewrite section_marker_shape.
  apply (@scan_segments false (marker (txt "["))
           (fun m => exists l, group 1 (m_groups m) = Some l)
           (@marker_nonempty (txt "[")) (@marker_ext (txt "["))
           (@marker_group (txt "[")) s None 0).
Qed.

(** What [parse_input_to_notebook] returns, on every input. *)
Lemma parse_input_to_notebook_shape text0 :
  parse_input_to_notebook text0
  = Ok (Notebook
          (map clean_cell
               (metadata_cell :: flat_map plain_cells (labelled text0)
                ++ [final_separator]))
          [] 4 5).
Proof.
  unfold parse_input_to_notebook.
  rewrite cut_end_document_ok. cbn [bind].
  rewrite split_one_group by reflexivity.
  cbn [length]. rewrite length_entries.
  change (S (2 * ?n)) with (1 + 2 * n). rewrite range_pairs.
  change (Some ?g :: flat_map ?f ?l) with ([Some g] ++ flat_map f l).
  rewrite (@section_loop
             (snd (segments (items false section_marker (cut text0))))
             [Some (fst (segments (items false section_marker (cut text0))))]
             0 [metadata_cell]);
    [|reflexivity|apply section_segments].
  cbn [bind]. rewrite (map_m_ok cleanup_cell clean_cell cleanup_cell_ok).
  reflexivity.
Qed.

(** ** Cell ids *)

Lemma string_of_uint_digits d :
  Forall (fun c => is_digit c = true)
         (list_ascii_of_string (NilEmpty.string_of_uint d)).
Proof.
  induction d; simpl; constructor; auto.
Qed.

Lemma str_of_nat_digits n : Forall (fun c => is_digit c = true) (str_of_nat n).
Proof. apply string_of_uint_digits. Qed.

Lemma str_of_nat_inj n m : str_of_nat n = str_of_nat m -> n = m.
Proof.
  unfold str_of_nat. intros H.
  apply DecimalNat.Unsigned.to_uint_inj.
  assert (Hs : NilEmpty.string_of_uint (Nat.to_uint n)
               = NilEmpty.string_of_uint (Nat.to_uint m)).
  { rewrite <- (string_of_list_ascii_of_string
                  (NilEmpty.string_of_uint (Nat.to_uint n))), H.
    apply string_of_list_ascii_of_string. }
  pose proof (NilEmpty.usu (Nat.to_uint n)) as Hn.
  rewrite Hs, NilEmpty.usu in Hn. now inversion Hn.
Qed.

Lemma str_of_nat_not_before n t : str_of_nat n <> txt "before_" ++ t.
Proof.
  intros H. pose proof (str_of_nat_digits n) as Hd. rewrite H in Hd.
  inversion Hd as [|? ? Hb _]. discriminate Hb.
Qed.

Lemma render_inj x y : render x = render y -> x = y.
Proof.
  destruct x as [| |t|i|i], y as [| |t'|j|j]; simpl; intros H;
    try reflexivity; try discriminate H.
  - injection H as H. now subst.
  - injection H as H. symmetry in H. now apply str_of_nat_not_before in H.
  - injection H as H. now apply str_of_nat_not_before in H.
  - injection H as H. f_equal. now apply str_of_nat_inj.
  - injection H as H. f_equal. now apply str_of_nat_inj.
Qed.

Lemma NoDup_map_inj {A B} (f : A -> B) l :
  (forall x y, f x = f y -> x = y) -> NoDup l -> NoDup (map f l).
Proof.
  intros Hf. induction 1 as [|x l Hx Hl IH]; simpl; constructor; auto.
  rewrite in_map_iff. intros (y & E & Hy). apply Hf in E. now subst.
Qed.

Lemma id_clean_cell c : id (clean_cell c) = id c.
Proof.
  unfold clean_cell.
  now destruct (list_eq_dec ascii_dec (cell_type c) (txt "markdown")).
Qed.

Lemma ids_plain_cells e : map id (plain_cells e) = map render (plain_ids e).
Proof.
  destruct e as [[i title] g]. unfold plain_cells, plain_ids, dividers.
  unfold has_section_shape.
  destruct (found section_label (upper title));
    [|destruct (found prompt_response (upper title))]; reflexivity.
Qed.

Lemma ids_flat_map es :
  map id (flat_map plain_cells es) = map render (flat_map plain_ids es).
Proof.
  induction es as [|e es IH]; [reflexivity|].
  simpl. now rewrite !map_app, IH, ids_plain_cells.
Qed.

(** Where the ids of the sections from pair [a] on can come from. *)
Lemma in_plain_ids x : forall segs a,
  In x (flat_map plain_ids (indexed a segs)) ->
  (exists i, 1 + a * 2 <= i /\ (x = IdSeparator i \/ x = IdSection i)) \/
  (exists t, x = IdBefore t /\
             In t (filter has_section_shape
                          (map (fun e => snd (fst e)) (indexed a segs)))).
Proof.
  induction segs as [|[m g] segs IH]; intros a H; [now elim H|].
  cbn [indexed flat_map] in H. apply in_app_or in H as [H|H].
  - unfold plain_ids in H. cbn [indexed map filter fst snd].
    destruct (has_section_shape (label_of m)).
    + destruct H as [<-|[<-|[]]].
      * right. eexists. split; [reflexivity|now left].
      * left. exists (1 + a * 2). auto.
    + left. exists (1 + a * 2).
      destruct (found prompt_response (upper (label_of m)));
        simpl in H; intuition (subst; auto).
  - apply IH in H as [(i & Hi & H)|(t & -> & H)].
    + left. exists i. split; [lia|exact H].
    + right. exists t. split; [reflexivity|].
      cbn [indexed map filter fst snd].
      destruct (has_section_shape (label_of m)); [now right|exact H].
Qed.

Lemma NoDup_plain_ids : forall segs a,
  NoDup (filter has_section_shape
                (map (fun e => snd (fst e)) (indexed a segs))) ->
  NoDup (flat_map plain_ids (indexed a segs)).
Proof.
  induction segs as [|[m g] segs IH]; intros a Hnd; [constructor|].
  cbn [indexed flat_map]. cbn [indexed map filter fst snd] in Hnd.
  assert (Hrest : NoDup (flat_map plain_ids (indexed (S a) segs))).
  { apply IH. destruct (has_section_shape (label_of m));
      [now inversion Hnd|exact Hnd]. }
  assert (Hfar : forall i, 1 + S a * 2 <= i -> 1 + a * 2 <> i) by (intros; lia).
  apply NoDup_app; [| exact Hrest |].
  - unfold plain_ids.
    destruct (has_section_shape (label_of m));
      [|destruct (found prompt_response (upper (label_of m)))];
      repeat constructor; simpl; intuition discriminate.
  - intros x Hx Hin.
    apply in_plain_ids in Hin as [(i & Hi & Hin)|(t & -> & Hin)].
    + unfold plain_ids in Hx. apply Hfar in Hi.
      destruct (has_section_shape (label_of m));
        [|destruct (found prompt_response (upper (label_of m)))];
        simpl in Hx, Hi; intuition (subst; try discriminate; congruence).
    + unfold plain_ids in Hx.
      destruct (has_section_shape (label_of m)) eqn:E.
      * inversion Hnd as [|? ? Hnot _]; subst.
        simpl in Hx. destruct Hx as [Hx|[Hx|[]]]; [|discriminate].
        inversion Hx; subst. contradiction.
      * destruct (found prompt_response (upper (label_of m)));
          simpl in Hx; intuition discriminate.
Qed.

(** The ids of a notebook are distinct when the labels of the shape
    [SECTION_<number>] are. *)
Lemma NoDup_notebook_ids text0 :
  NoDup (section_labels text0) ->
  NoDup (map id (map clean_cell
                     (metadata_cell :: flat_map plain_cells (labelled text0)
                      ++ [final_separator]))).
Proof.
  intros Hnd. rewrite map_map.
  rewrite (map_ext (fun c => id (clean_cell c)) id id_clean_cell).
  cbn [map]. rewrite map_app, ids_flat_map.
  replace (id metadata_cell
           :: map render (flat_map plain_ids (labelled text0))
              ++ map id [final_separator])
    with (map render
            (IdMetadata :: flat_map plain_ids (labelled text0) ++ [IdFinal]))
    by (cbn [map]; now rewrite map_app).
  apply NoDup_map_inj; [exact render_inj|].
  apply NoDup_plain_ids in Hnd. unfold labelled in *.
  set (segs := snd (segments (items false section_marker (cut text0)))) in *.
  constructor.
  - intros Hin. apply in_app_or in Hin as [Hin|[Hin|[]]]; [|discriminate].
    apply in_plain_ids in Hin as [(i & _ & [H|H])|(t & H & _)]; discriminate.
  - apply NoDup_app; [exact Hnd|repeat constructor; auto|].
    intros x Hx [<-|[]].
    apply in_plain_ids in Hx as [(i & _ & [H|H])|(t & H & _)]; discriminate.
Qed.

(** ** The section loop in general *)

Lemma sub_ok dotall r raw s :
  parse_template raw <> None -> exists t, sub dotall r raw s = Ok t.
Proof.
  intros H. unfold sub, subn.
  destruct (parse_template raw); [|congruence]. simpl. eauto.
Qed.

(** One turn of the atomic loop appends one cell. *)
Lemma atomic_body_ok parts i j cs t g :
  nth_error parts j = Some t ->
  nth_error parts (j + 1) = Some (Some g) ->
  exists c, atomic_body parts i j cs = Ok (cs ++ [c]).
Proof.
  intros Hj Hg. unfold atomic_body, get. rewrite Hj, Hg.
  cbn [bind receiver]. rewrite cut_end_document_ok. cbn [bind].
  destruct (sub_ok false display_math (txt "\\[\n\1\n\\]") (cut (strip g)))
    as [u ->]; [discriminate|].
  cbn [bind]. eauto.
Qed.

Lemma atomic_loop i : forall segs pre a cs,
  length pre = 1 + a * 2 ->
  exists new,
    for_each (map (fun k => 1 + k * 2) (seq a (length segs)))
             (atomic_body (pre ++ flat_map (split_entry [1]) segs) i) cs
    = Ok (cs ++ new)
    /\ length new = length segs.
Proof.
  induction segs as [|[m g] segs IH]; intros pre a cs Hpre.
  - exists []. simpl. now rewrite app_nil_r.
  - cbn [length seq map for_each].
    destruct (atomic_body_ok
                (pre ++ flat_map (split_entry [1]) ((m, g) :: segs))
                i (1 + a * 2) cs (t := group 1 (m_groups m)) (g := g))
      as [c Hc].
    + rewrite <- Hpre, nth_error_app2 by lia. now rewrite Nat.sub_diag.
    + rewrite <- Hpre, nth_error_app2 by lia.
      now replace (length pre + 1 - length pre) with 1 by lia.
    + rewrite Hc. cbn [bind].
      replace (pre ++ flat_map (split_entry [1]) ((m, g) :: segs))
        with ((pre ++ [group 1 (m_groups m); Some g])
              ++ flat_map (split_entry [1]) segs)
        by (now rewrite <- app_assoc).
      destruct (IH (pre ++ [group 1 (m_groups m); Some g]) (S a) (cs ++ [c]))
        as (new & Hnew & Hlen).
      { rewrite length_app. simpl. lia. }
      exists (c :: new). rewrite Hnew, <- app_assoc. simpl. auto.
Qed.

(** ** Inputs without a section marker *)

Lemma search_none_quiet text0 :
  search section_marker text0 = None -> quiet false section_marker text0.
Proof.
  rewrite section_marker_shape. unfold search, items.
  apply (@first_hit_none_quiet false (marker (txt "["))
           (@marker_nonempty (txt "[")) (@marker_ext (txt "["))).
Qed.

Lemma labelled_quiet text0 :
  quiet false section_marker text0 -> labelled text0 = [].
Proof.
  intros Hq. unfold labelled, items.
  destruct (cut_prefix text0) as [rem Hrem].
  rewrite scan_quiet; [now rewrite segments_keep_all|].
  rewrite section_marker_shape in *.
  apply (@quiet_part false (marker (txt "[")) (@marker_ext (txt "["))
           [] (cut text0) rem).
  simpl. now rewrite <- Hrem.
Qed.

(** ** escape_latex_delimiters_in_notebook *)

Lemma escape_text_ok s : escape_text s = Ok (escape_delimiters s).
Proof.
  unfold escape_text, delimiter_subs. cbn [for_each].
  rewrite (@sub_lit false (txt "\(") (txt "\\\(") (txt "\\(") s)
    by (discriminate || reflexivity).
  cbn [bind].
  rewrite (@sub_lit false (txt "\)") (txt "\\\)") (txt "\\)") _)
    by (discriminate || reflexivity).
  cbn [bind].
  rewrite (@sub_lit false (txt "\[") (txt "\\\[") (txt "\\[") _)
    by (discriminate || reflexivity).
  cbn [bind].
  rewrite (@sub_lit false (txt "\]") (txt "\\\]") (txt "\\]") _)
    by (discriminate || reflexivity).
  cbn [bind]. f_equal.
  change (txt "\(") with [bsl; "("%char].
  change (txt "\\(") with [bsl; bsl; "("%char].
  change (txt "\)") with [bsl; ")"%char].
  change (txt "\\)") with [bsl; bsl; ")"%char].
  change (txt "\[") with [bsl; "["%char].
  change (txt "\\[") with [bsl; bsl; "["%char].
  change (txt "\]") with [bsl; "]"%char].
  change (txt "\\]") with [bsl; bsl; "]"%char].
  rewrite !replace_esc by discriminate.
  rewrite (@esc_compose ")" ["("%char]) by (discriminate || reflexivity).
  rewrite (@esc_compose "[" [")"%char; "("%char])
    by (discriminate || reflexivity).
  rewrite (@esc_compose "]" ["["%char; ")"%char; "("%char])
    by (discriminate || reflexivity).
  unfold escape_delimiters. apply esc_ext. intros d. simpl.
  destruct (Ascii.eqb d "]"), (Ascii.eqb d "["), (Ascii.eqb d ")"),
    (Ascii.eqb d "("); reflexivity.
Qed.

Lemma escape_cell_ok c : escape_cell c = Ok (escaped_cell c).
Proof.
  unfold escape_cell, escaped_cell.
  destruct (list_eq_dec ascii_dec (cell_type c) (txt "markdown"));
    [|reflexivity].
  now rewrite (map_m_ok escape_text escape_delimiters escape_text_ok).
Qed.

End AppFacts.

(* ===================================================================== *)
(** * Facts about app_dollar.py *)
(* ===================================================================== *)

Module AppDollarFacts.
Import Py Re Shape ReFacts AppDollar.

(** A pass that counts no match returns the text it was given. *)
Lemma subn_zero dotall r repl s t :
  subn dotall r repl s = Ok (t, 0) -> t = s.
Proof.
  unfold subn. destruct (parse_template repl) as [tpl|]; [|discriminate].
  intros H. inversion H as [[Ht Hc]].
  apply (rebuild_no_hit dotall r (expand tpl) s None 0 Hc).
Qed.

(** A call updates the two variables as [run_pass] updates its pair. *)
Lemma call_run_pass pattern replacement t n :
  call pattern replacement (Locals t n)
  = r <- run_pass (pattern, replacement) (t, n) ;;
    Ok (Locals (fst r) (snd r)).
Proof.
  unfold call, convert_and_count, run_pass. cbn [fst snd current_text].
  destruct (subn false pattern replacement t) as [[t' c]|e] eqn:E;
    [|reflexivity].
  cbn [bind fst snd conversion_count].
  destruct c as [|c]; [|reflexivity].
  apply subn_zero in E. subst t'. cbn [Nat.ltb Nat.leb bind snd].
  now rewrite Nat.add_0_r.
Qed.

Lemma calls_run_passes : forall ps t n,
  for_each ps (fun p st => call (fst p) (snd p) st) (Locals t n)
  = r <- for_each ps run_pass (t, n) ;; Ok (Locals (fst r) (snd r)).
Proof.
  induction ps as [|[pat repl] ps IH]; intros t n; [reflexivity|].
  cbn [for_each fst snd]. rewrite call_run_pass.
  destruct (run_pass (pat, repl) (t, n)) as [[t' n']|e]; [|reflexivity].
  cbn [bind fst snd]. apply IH.
Qed.

Lemma for_each_app {A S} (xs ys : list A) (body : A -> S -> result S) st :
  for_each (xs ++ ys) body st
  = st' <- for_each xs body st ;; for_each ys body st'.
Proof.
  revert st. induction xs as [|x xs IH]; intros st; [reflexivity|].
  simpl. destruct (body x st); [apply IH|reflexivity].
Qed.

Lemma for_each_map {A B S} (f : A -> B) (xs : list A)
  (body : B -> S -> result S) st :
  for_each (map f xs) body st = for_each xs (fun x => body (f x)) st.
Proof.
  revert st. induction xs as [|x xs IH]; intros st; [reflexivity|].
  simpl. destruct (body (f x) st); [apply IH|reflexivity].
Qed.

(** The calls of [convert_latex_delimiters] are the passes of [passes],
    one after the other on the text so far, and the count returned is
    the sum of the counts of the passes. *)
Lemma convert_latex_delimiters_passes text0 :
  convert_latex_delimiters text0 = run_passes passes text0.
Proof.
  unfold run_passes.
  transitivity
    (st <- for_each passes (fun p st => call (fst p) (snd p) st)
             (Locals text0 0) ;;
     Ok (current_text st, conversion_count st)).
  - unfold convert_latex_delimiters, passes.
    cbn [for_each fst snd].
    destruct (call display_brackets (txt "$$\1$$") (Locals text0 0))
      as [st1|e]; [|reflexivity].
    cbn [bind]. rewrite for_each_app, for_each_map. cbn [fst snd].
    destruct (for_each display_envs _ st1) as [st2|e]; [|reflexivity].
    cbn [bind for_each fst snd].
    destruct (call inline_parens (txt "$\1$") st2) as [st3|e];
      [|reflexivity].
    cbn [bind].
    destruct (call ensuremath (txt "$\1$") st3) as [st4|e]; reflexivity.
  - rewrite calls_run_passes.
    destruct (for_each passes run_pass (text0, 0)) as [[t n]|e];
      reflexivity.
Qed.

End AppDollarFacts.

(* ===================================================================== *)
(** * The properties of the specification *)
(* ===================================================================== *)

Import Py Re App AppDollar Shape ReFacts PyFacts AppFacts AppDollarFacts.

(** ** The worked example of the structuring pipeline *)

Lemma section_and_atomic_untouched :
  bind (transform_latex_equations section_and_atomic) perform_substitutions
  = Ok section_and_atomic.
Proof. vm_compute. reflexivity. Qed.

(** C1, as the specification states it, fails: for the worked example
    the pipeline does not produce a section cell with an empty body
    followed by an atomic cell with hard line breaks, whatever ids the
    three middle cells are given. *)
Lemma worked_example_differs :
  ~ exists d s a,
      structured_notebook section_and_atomic
      = Ok (Notebook (expected_cells d s a) [] 4 5).
Proof.
  intros (d & s & a & H). vm_compute in H. discriminate H.
Qed.

(** C1, amended: for the worked example the pipeline returns five
    cells: the metadata cell, a divider with id
    separator_before_[SECTION_01], the section cell section_1 titled
    [SECTION_01] whose body is Hello, a cell titled [atomic_a], and the
    trailing divider. *)
Theorem worked_example_cells :
  exists body i4,
    structured_notebook section_and_atomic
    = Ok (Notebook
            [ metadata_cell;
              separator (txt "separator_before_[SECTION_01]");
              markdown_cell (txt "**[SECTION_01]**" ++ [nl; nl] ++ txt "Hello")
                            (txt "section_1");
              markdown_cell (txt "**[atomic_a]**" ++ [nl; nl] ++ body) i4;
              final_separator ]
            [] 4 5).
Proof.
  exists (txt "foo" ++ [nl] ++ txt "bar"), (txt "section_3").
  vm_compute. reflexivity.
Qed.

Lemma worked_example_output :
  structured_notebook section_and_atomic
  = Ok (Notebook
          [ metadata_cell;
            separator (txt "separator_before_[SECTION_01]");
            markdown_cell (txt "**[SECTION_01]**" ++ [nl; nl] ++ txt "Hello")
                          (txt "section_1");
            markdown_cell
              (txt "**[atomic_a]**" ++ [nl; nl] ++ txt "foo" ++ [nl]
               ++ txt "bar")
              (txt "section_3");
            final_separator ]
          [] 4 5).
Proof. vm_compute. reflexivity. Qed.

(** ** convert_latex_delimiters *)

Lemma convert_example :
  convert_latex_delimiters (txt "Text \[ x+y \] more \(a\) end")
  = Ok (txt "Text $$ x+y $$ more $a$ end", 2).
Proof. vm_compute. reflexivity. Qed.

(** C2: on a starred environment the program and the passes as the
    specification words them part ways.  The name is pasted into the
    pattern unescaped, so the pass for equation* looks for equatio
    followed by any number of n and never sees the star: the text comes
    back unchanged with count 0, where the passes with literal names
    give one display-math conversion. *)
Theorem starred_environment_not_converted :
  convert_latex_delimiters starred_equation = Ok (starred_equation, 0)
  /\ run_passes literal_passes starred_equation = Ok (txt "$$x$$", 1).
Proof. split; vm_compute; reflexivity. Qed.

(** ** perform_substitutions *)

(** C3: the seven substitutions are applied once each, in the listed
    order, each to the result of the one before; on the example of the
    specification the result is the expected one. *)
Theorem perform_substitutions_in_order :
  (forall input_text,
      perform_substitutions input_text
      = Ok (replace (txt "\_") (txt "_")
           (replace (txt "\theta") (txt "\\theta")
           (replace (txt "\begin") (txt "\\begin")
           (replace (txt "\rfloor") (txt "\\rfloor")
           (replace (txt "\right") (txt "\\right")
           (replace (txt "\frac") (txt "\\frac")
           (replace (txt "\\") (txt "\newline") input_text))))))))
  /\ perform_substitutions (txt "\frac{1}{2} \\ \theta")
     = Ok (txt "\\frac{1}{2} \newline \\theta").
Proof.
  split; [|vm_compute; reflexivity].
  intros input_text. unfold perform_substitutions, substitutions.
  cbn [for_each].
  rewrite (@sub_lit false (txt "\\") (txt "\\newline") (txt "\newline"))
    by (discriminate || reflexivity).
  cbn [bind].
  rewrite (@sub_lit false (txt "\frac") (txt "\\\\frac") (txt "\\frac"))
    by (discriminate || reflexivity).
  cbn [bind].
  rewrite (@sub_lit false (txt "\right") (txt "\\\\right") (txt "\\right"))
    by (discriminate || reflexivity).
  cbn [bind].
  rewrite (@sub_lit false (txt "\rfloor") (txt "\\\\rfloor") (txt "\\rfloor"))
    by (discriminate || reflexivity).
  cbn [bind].
  rewrite (@sub_lit false (txt "\begin") (txt "\\\\begin") (txt "\\begin"))
    by (discriminate || reflexivity).
  cbn [bind].
  rewrite (@sub_lit false (txt "\theta") (txt "\\\\theta") (txt "\\theta"))
    by (discriminate || reflexivity).
  cbn [bind].
  rewrite (@sub_lit false (txt "\_") (txt "_") (txt "_"))
    by (discriminate || reflexivity).
  reflexivity.
Qed.

(** ** Cell ids *)

(** C4, as stated, fails: two sections with the same label of the shape
    SECTION_<number> get dividers with the same id. *)
Lemma repeated_label_repeats_id :
  exists nb,
    parse_input_to_notebook repeated_label = Ok nb
    /\ ~ NoDup (map id (cells nb)).
Proof.
  eexists. split; [vm_compute; reflexivity|].
  intros H. inversion H as [|? ? _ H1]; subst.
  inversion H1 as [|? ? Hin _]; subst.
  apply Hin. simpl. auto.
Qed.

(** C4, amended: when the labels of the shape SECTION_<number> in the
    input are pairwise distinct, parse_input_to_notebook returns a
    notebook in which no two cells share an id. *)
Theorem ids_unique_for_distinct_labels text0 :
  NoDup (section_labels text0) ->
  exists nb,
    parse_input_to_notebook text0 = Ok nb /\ NoDup (map id (cells nb)).
Proof.
  intros Hnd. eexists. split; [apply parse_input_to_notebook_shape|].
  cbn [cells]. now apply NoDup_notebook_ids.
Qed.

Lemma ids_unique_for_distinct_labels_witness :
  NoDup (section_labels section_and_atomic)
  /\ exists nb,
       parse_input_to_notebook section_and_atomic = Ok nb
       /\ NoDup (map id (cells nb)).
Proof.
  assert (H : NoDup (section_labels section_and_atomic)).
  { vm_compute. repeat constructor. simpl. intros []. }
  split; [exact H|].
  exact (ids_unique_for_distinct_labels section_and_atomic H).
Defined.

(** ** The atomic split inside a section *)




(** ** The guard on the delimiters *)

(** C6, as stated, fails: the replacement template keeps the backslash
    of an escaped parenthesis or bracket, so each delimiter comes out
    with two backslashes. *)
Lemma guard_changes_delimiters :
  escape_latex_delimiters_in_notebook inline_notebook
  = Ok (Notebook [markdown_cell (txt "\\(x\\)") (txt "section_1")] [] 4 5)
  /\ escape_latex_delimiters_in_notebook inline_notebook
     <> Ok inline_notebook.
Proof. split; vm_compute; [reflexivity|discriminate]. Qed.

(** C6, amended: escape_latex_delimiters_in_notebook puts one more
    backslash in front of every backslash that is followed by a
    parenthesis or a square bracket, in every source string of every
    markdown cell, and changes nothing else. *)
Theorem guard_doubles_backslashes nb :
  escape_latex_delimiters_in_notebook nb
  = Ok (Notebook (map escaped_cell (cells nb))
                 (provenance nb) (nbformat nb) (nbformat_minor nb)).
Proof.
  unfold escape_latex_delimiters_in_notebook.
  now rewrite (map_m_ok escape_cell escaped_cell escape_cell_ok).
Qed.

(** ** The final clean-up *)

(** C7, as stated, fails: four backslashes become two, and two become
    one on the second round. *)
Lemma cleanup_twice_differs :
  bind (cleanup [bsl; bsl; bsl; bsl]) cleanup <> cleanup [bsl; bsl; bsl; bsl].
Proof. vm_compute. discriminate. Qed.

(** C7, amended: on a text without three backslashes in a row, a second
    round of the clean-up changes nothing. *)
Theorem cleanup_idempotent s :
  contains [bsl; bsl; bsl] s = false ->
  bind (cleanup s) cleanup = cleanup s.
Proof.
  intros H. rewrite cleanup_ok. cbn [bind]. rewrite cleanup_ok.
  f_equal. unfold clean. fold halve.
  destruct (cut_prefix (halve s)) as [rem Hrem].
  assert (Hd : contains [bsl; bsl] (cut (halve s)) = false).
  { apply contains_prefix with (rem := rem). rewrite <- Hrem.
    now apply halve_once. }
  unfold halve at 1. rewrite (replace_absent _ _ _ Hd). apply cut_idem.
Qed.

Lemma cleanup_idempotent_witness :
  bind (cleanup (txt "a \\frac{1}{2} \end{document} b")) cleanup
  = cleanup (txt "a \\frac{1}{2} \end{document} b").
Proof.
  apply (cleanup_idempotent (txt "a \\frac{1}{2} \end{document} b")).
  reflexivity.
Defined.

(** ** Inputs without a section *)

(** C8: on an input in which the section pattern matches nowhere, the
    empty input among them, parse_input_to_notebook returns the
    notebook of the metadata cell and the trailing divider. *)
Theorem no_marker_two_cells text0 :
  search section_marker text0 = None ->
  parse_input_to_notebook text0
  = Ok (Notebook [metadata_cell; final_separator] [] 4 5).
Proof.
  intros H. rewrite parse_input_to_notebook_shape.
  rewrite (labelled_quiet (search_none_quiet H)).
  vm_compute. reflexivity.
Qed.

Lemma empty_input_through_handler :
  structured_notebook []
  = Ok (Notebook [metadata_cell; final_separator] [] 4 5).
Proof. vm_compute. reflexivity. Qed.

Lemma no_marker_two_cells_witness :
  parse_input_to_notebook []
  = Ok (Notebook [metadata_cell; final_separator] [] 4 5).
Proof. apply (no_marker_two_cells []). reflexivity. Defined.

(** ** Atomic markers at the top level *)

Lemma labelled_quiet_parts : forall segs a,
  Forall (fun mg : rmatch * text =>
            (exists l, group 1 (m_groups (fst mg)) = Some l) /\
            quiet false section_marker (snd mg)) segs ->
  Forall (fun e => quiet false section_marker (snd e)) (indexed a segs).
Proof.
  induction segs as [|[m g] segs IH]; intros a H; [constructor|].
  inversion H as [|? ? [_ Hq] Hall]; subst.
  cbn [indexed]. constructor; [exact Hq|now apply IH].
Qed.

Lemma render_not_bracket x : startswith (txt "[") (render x) = false.
Proof. destruct x; reflexivity. Qed.

(** C9, as stated, fails in its last clause: an atomic label that
    contains PROMPT as a word is a top-level section and gets a divider
    in front. *)
Lemma atomic_label_with_divider :
  parse_input_to_notebook atomic_prompt
  = Ok (Notebook
          [ metadata_cell;
            separator (txt "separator_1");
            markdown_cell (txt "**[atomic_a PROMPT]**" ++ [nl; nl] ++ txt "x")
                          (txt "section_1");
            final_separator ]
          [] 4 5).
Proof. vm_compute. reflexivity. Qed.

(** C9, amended: wherever the atomic pattern matches, the top-level
    pattern matches too; so for every input the atomic split of the
    content of every section is the content in one part, the notebook
    holds the metadata cell, then for each label, atomic ones included,
    the divider its label asks for (the shape SECTION_<number>, or the
    word PROMPT or RESPONSE) and its section cell, then the trailing
    divider, and no id starts with a bracket as the ids of the atomic
    loop would. *)
Theorem atomic_markers_are_sections :
  (forall prev s,
      is_some (match_at false atomic_marker prev s false) ->
      is_some (match_at false section_marker prev s false))
  /\ forall text0,
       Forall (fun e =>
                 split atomic_marker (cut (strip (snd e)))
                 = [Some (cut (strip (snd e)))])
              (labelled text0)
       /\ exists nb,
            parse_input_to_notebook text0 = Ok nb
            /\ cells nb
               = map clean_cell
                     (metadata_cell :: flat_map plain_cells (labelled text0)
                      ++ [final_separator])
            /\ Forall (fun i => startswith (txt "[") i = false)
                      (map id (cells nb)).
Proof.
  split.
  - intros prev s. rewrite section_marker_shape, atomic_marker_shape.
    rewrite !match_at_marker. intros H.
    assert (Hs : is_some (marker_run (txt "[") prev s)).
    { apply atomic_marker_is_marker with (prev := prev).
      unfold is_some in *.
      destruct (marker_run (txt "[atomic_") prev s) as [[? ?]|]; congruence. }
    unfold is_some in *.
    destruct (marker_run (txt "[") prev s) as [[? ?]|]; congruence.
  - intros text0. split.
    + eapply Forall_impl;
        [|apply labelled_quiet_parts, section_segments].
      intros e He. now apply atomic_split_single.
    + eexists. split; [apply parse_input_to_notebook_shape|].
      cbn [cells]. split; [reflexivity|].
      rewrite map_map.
      rewrite (map_ext (fun c => id (clean_cell c)) id id_clean_cell).
      cbn [map]. rewrite map_app, ids_flat_map.
      constructor; [reflexivity|].
      apply Forall_app. split; [|repeat constructor].
      apply Forall_forall. intros i Hi.
      apply in_map_iff in Hi as (x & <- & _). apply render_not_bracket.
Qed.

Lemma atomic_markers_are_sections_witness :
  is_some (match_at false section_marker None
                    (txt "\section*{[atomic_a]}") false).
Proof.
  apply (proj1 atomic_markers_are_sections None (txt "\section*{[atomic_a]}")).
  vm_compute. discriminate.
Defined.

(** ** The pairs of the section split *)

(** C10: the list that the split on the section pattern returns has odd
    length, every index of the loop has its content at the next index,
    and parse_input_to_notebook returns a notebook on every input. *)
Theorem section_split_odd text0 :
  (exists n, length (split section_marker text0) = 2 * n + 1)
  /\ Forall (fun i => i + 1 < length (split section_marker (cut text0)))
            (range 1 (length (split section_marker (cut text0))) 2)
  /\ exists nb, parse_input_to_notebook text0 = Ok nb.
Proof.
  split; [|split].
  - rewrite split_one_group by reflexivity. cbn [length].
    rewrite length_entries. eexists. rewrite Nat.add_1_r. reflexivity.
  - rewrite split_one_group by reflexivity. cbn [length].
    rewrite length_entries.
    change (S (2 * ?n)) with (1 + 2 * n). rewrite range_pairs.
    apply Forall_forall. intros i Hi.
    apply in_map_iff in Hi as (k & <- & Hk). apply in_seq in Hk. lia.
  - eexists. apply parse_input_to_notebook_shape.
Qed.

(* ===================================================================== *)
(** * Further properties of the programs *)
(* ===================================================================== *)

#[local] Arguments Ascii.eqb : simpl never.

(** ** Patterns that begin with a literal *)

Lemma contains_suffix p : forall pre u,
  contains p (pre ++ u) = false -> contains p u = false.
Proof.
  induction pre as [|c pre IH]; intros u H; [exact H|].
  simpl in H. apply orb_false_iff in H as [_ H]. now apply IH.
Qed.

Lemma match_at_literal_head dotall l r prev s must :
  startswith l s = false ->
  match_at dotall (Cat (Lit l) r) prev s must = None.
Proof.
  unfold match_at, startswith. cbn [rx].
  rewrite <- (eat_strip_prefix l prev).
  now destruct (eat l prev s) as [[p1 s1]|].
Qed.

Lemma quiet_without_literal dotall l r s :
  contains l s = false -> quiet dotall (Cat (Lit l) r) s.
Proof.
  intros H pre u prev ->. apply match_at_literal_head.
  apply contains_startswith. eapply contains_suffix; eauto.
Qed.

Lemma quiet_without_lit dotall l s :
  contains l s = false -> quiet dotall (Lit l) s.
Proof.
  intros H pre u prev ->. rewrite match_at_lit.
  rewrite contains_startswith; [reflexivity|].
  eapply contains_suffix; eauto.
Qed.

Lemma plain_no_backslash_word l : forall s,
  plain s = true -> contains (bsl :: l) s = false.
Proof.
  induction s as [|c s IH]; intros H; [reflexivity|].
  simpl in H. apply andb_true_iff in H as [Hc Hs].
  simpl. rewrite (IH Hs), orb_false_r.
  unfold startswith. simpl.
  rewrite Ascii.eqb_sym. apply negb_true_iff in Hc. now rewrite Hc.
Qed.

Lemma rebuild_keep f s : rebuild f (map Keep s) = s.
Proof. induction s as [|c s IH]; simpl; congruence. Qed.

(** On a text in which the pattern matches nowhere a substitution counts
    nothing and returns the text. *)
Lemma subn_quiet dotall r repl s :
  parse_template repl <> None -> quiet dotall r s ->
  subn dotall r repl s = Ok (s, 0).
Proof.
  intros Ht Hq. unfold subn, items.
  destruct (parse_template repl); [|congruence].
  rewrite scan_quiet by exact Hq. rewrite rebuild_keep.
  do 2 f_equal. induction s as [|c s IH]; [reflexivity|].
  simpl. apply IH. intros pre u p E. apply (Hq (c :: pre) u p).
  now rewrite E.
Qed.

Lemma sub_quiet dotall r repl s :
  parse_template repl <> None -> quiet dotall r s ->
  sub dotall r repl s = Ok s.
Proof.
  intros Ht Hq. unfold sub. now rewrite subn_quiet.
Qed.

Lemma sub_with_quiet dotall r f s :
  quiet dotall r s -> sub_with dotall r f s = Ok s.
Proof.
  intros Hq. unfold sub_with, items. rewrite scan_quiet by exact Hq.
  induction s as [|c s IH]; [reflexivity|].
  simpl. simpl in IH. rewrite IH; [reflexivity|].
  intros pre u p E. apply (Hq (c :: pre) u p). now rewrite E.
Qed.

(** ** convert_latex_delimiters *)

Lemma passes_templates :
  Forall (fun p : regex * text => parse_template (snd p) <> None) passes.
Proof.
  unfold passes, display_envs. cbn [map app].
  repeat constructor; intros H; vm_compute in H; discriminate H.
Qed.

Lemma run_passes_count : forall ps,
  Forall (fun p : regex * text => parse_template (snd p) <> None) ps ->
  forall t n,
  exists t' n',
    for_each ps run_pass (t, n) = Ok (t', n')
    /\ n <= n' /\ (n' = n -> t' = t).
Proof.
  induction ps as [|p ps IH]; intros Hall t n.
  - exists t, n. simpl. auto.
  - inversion Hall as [|? ? Hp Hps]; subst.
    cbn [for_each]. unfold run_pass at 1. cbn [fst snd].
    destruct (subn false (fst p) (snd p) t) as [[t1 c]|e] eqn:E.
    + cbn [bind fst snd].
      destruct (IH Hps t1 (n + c)) as (t' & n' & Hrun & Hle & Hzero).
      exists t', n'. split; [exact Hrun|]. split; [lia|].
      intros Hn. assert (c = 0) by lia. subst c.
      apply subn_zero in E. subst t1. apply Hzero. lia.
    + unfold subn in E. destruct (parse_template (snd p)); [discriminate|].
      congruence.
Qed.

(** X1: convert_latex_delimiters raises on no input; what it returns is
    what the passes return when run in the order of the calls, each on
    the text the one before left, with the numbers of matches added up;
    and when the count is 0 the text is the input. *)
Theorem convert_latex_delimiters_count text0 :
  exists t n,
    convert_latex_delimiters text0 = Ok (t, n)
    /\ run_passes passes text0 = Ok (t, n)
    /\ (n = 0 -> t = text0).
Proof.
  rewrite convert_latex_delimiters_passes. unfold run_passes.
  destruct (run_passes_count passes_templates text0 0)
    as (t & n & Hrun & _ & Hzero).
  exists t, n. auto.
Qed.

Lemma run_passes_quiet : forall ps t n,
  Forall (fun p : regex * text =>
            parse_template (snd p) <> None /\ quiet false (fst p) t) ps ->
  for_each ps run_pass (t, n) = Ok (t, n).
Proof.
  induction ps as [|p ps IH]; intros t n Hall; [reflexivity|].
  inversion Hall as [|? ? [Hp Hq] Hps]; subst.
  cbn [for_each]. unfold run_pass at 1. cbn [fst snd].
  rewrite (@subn_quiet false (fst p) (snd p) t Hp Hq). cbn [bind fst snd].
  rewrite Nat.add_0_r. now apply IH.
Qed.

(** X2: a text without a backslash comes back from
    convert_latex_delimiters as it is, with count 0. *)
Theorem convert_latex_delimiters_plain text0 :
  plain text0 = true ->
  convert_latex_delimiters text0 = Ok (text0, 0).
Proof.
  intros Hp. rewrite convert_latex_delimiters_passes.
  apply run_passes_quiet.
  unfold passes, display_envs. cbn [map app].
  repeat constructor; cbn [fst snd];
    try (intros H; vm_compute in H; discriminate H);
    apply quiet_without_literal; now apply plain_no_backslash_word.
Qed.

Lemma convert_latex_delimiters_plain_witness :
  convert_latex_delimiters (txt "x + y = 2 (no math markup)")
  = Ok (txt "x + y = 2 (no math markup)", 0).
Proof.
  apply (convert_latex_delimiters_plain (txt "x + y = 2 (no math markup)")).
  reflexivity.
Defined.

(** ** The cut at the end of the document *)

(** X3: cutting at the document-end marker a second time changes
    nothing, as in the second cut of a RESPONSE section. *)
Theorem cut_end_document_twice s :
  bind (cut_end_document s) cut_end_document = cut_end_document s.
Proof.
  rewrite cut_end_document_ok. cbn [bind].
  rewrite cut_end_document_ok. now rewrite cut_idem.
Qed.

(** A text that starts with [p] once [a] is put in front either starts
    with [p] already in [a], or [p] runs from [a] into the rest. *)
Lemma startswith_split : forall a p t,
  startswith p (a ++ t) = true ->
  startswith p a = true \/ exists p2, p = a ++ p2 /\ startswith p2 t = true.
Proof.
  induction a as [|x a IH]; intros p t H.
  - right. exists p. auto.
  - destruct p as [|c p]; [now left|].
    unfold startswith in H. simpl in H.
    destruct (Ascii.eqb c x) eqn:E; [|discriminate].
    apply Ascii.eqb_eq in E. subst c.
    destruct (IH p t) as [Hl|(p2 & -> & Hr)].
    + exact H.
    + left. unfold startswith in *. simpl. now rewrite Ascii.eqb_refl.
    + right. exists p2. auto.
Qed.

(** A marker whose first character occurs nowhere else in it cannot
    start inside [a] and end inside a copy of itself that follows. *)
Lemma startswith_before_marker c m a rest :
  ~ In c m ->
  startswith (c :: m) (a ++ (c :: m) ++ rest) = true ->
  a = [] \/ startswith (c :: m) a = true.
Proof.
  intros Hc H. destruct a as [|x a]; [now left|]. right.
  apply startswith_split in H as [H|(p2 & E & H)]; [exact H|].
  inversion E as [[Ex Em]]. subst x.
  destruct p2 as [|d p2].
  - rewrite app_nil_r in Em. subst m. apply startswith_true.
    exists []. now rewrite app_nil_r.
  - exfalso. apply Hc. rewrite Em. apply in_or_app. right.
    unfold startswith in H. simpl in H.
    destruct (Ascii.eqb d c) eqn:Ed; [|discriminate].
    apply Ascii.eqb_eq in Ed. subst d. now left.
Qed.

Lemma before_app_marker c m : ~ In c m -> forall a rest,
  before (c :: m) (a ++ (c :: m) ++ rest) = before (c :: m) a.
Proof.
  intros Hc. induction a as [|x a IH]; intros rest.
  - cbn [app before].
    replace (startswith (c :: m) (c :: m ++ rest)) with true; [reflexivity|].
    symmetry. apply startswith_true. now exists rest.
  - cbn [before app].
    destruct (startswith (c :: m) (x :: a)) eqn:E.
    + apply startswith_app with (rem := (c :: m) ++ rest) in E.
      cbn [app] in E. now rewrite E.
    + destruct (startswith (c :: m) (x :: a ++ c :: m ++ rest)) eqn:E2.
      * apply (@startswith_before_marker c m (x :: a) rest Hc) in E2
          as [E2|E2]; congruence.
      * f_equal. apply IH.
Qed.

Lemma cut_app_end_marker a rest : cut (a ++ end_marker ++ rest) = cut a.
Proof.
  unfold cut. apply (@before_app_marker bsl (txt "end{document}")).
  intros H. simpl in H. intuition discriminate.
Qed.

Lemma parse_input_to_notebook_cut text0 :
  parse_input_to_notebook text0 = parse_input_to_notebook (cut text0).
Proof.
  rewrite !parse_input_to_notebook_shape. unfold labelled.
  now rewrite cut_idem.
Qed.

(** X4: a document-end marker and whatever follows it never reach the
    notebook: with the marker and any text appended, an input gives the
    notebook it gives alone. *)
Theorem text_after_end_marker_ignored a rest :
  parse_input_to_notebook (a ++ txt "\end{document}" ++ rest)
  = parse_input_to_notebook a.
Proof.
  rewrite (parse_input_to_notebook_cut (a ++ _)).
  rewrite (parse_input_to_notebook_cut a).
  f_equal. apply cut_app_end_marker.
Qed.

(** ** Invariants of the notebook *)

Lemma clean_markdown_cell s i :
  clean_cell (markdown_cell s i) = markdown_cell (clean s) i.
Proof. reflexivity. Qed.

Lemma plain_cells_markdown e :
  Forall (fun c => exists s i, c = markdown_cell s i) (plain_cells e).
Proof.
  destruct e as [[i title] g]. unfold plain_cells, dividers.
  apply Forall_app. split.
  - destruct (found section_label (upper title));
      [|destruct (found prompt_response (upper title))];
      repeat constructor; unfold separator; eauto.
  - repeat constructor. unfold section_cell. eauto.
Qed.

Lemma notebook_cells_markdown es :
  Forall (fun c => exists s i, c = markdown_cell (clean s) i)
         (map clean_cell
              (metadata_cell :: flat_map plain_cells es ++ [final_separator])).
Proof.
  apply Forall_map. constructor.
  - unfold metadata_cell. rewrite clean_markdown_cell. eauto.
  - apply Forall_app. split.
    + apply Forall_flat_map. apply Forall_forall. intros e _.
      eapply Forall_impl; [|apply plain_cells_markdown].
      intros c (s & i & ->). rewrite clean_markdown_cell. eauto.
    + repeat constructor. unfold final_separator, separator.
      rewrite clean_markdown_cell. eauto.
Qed.

(** X5: on every input the notebook begins with the metadata cell and
    ends with the trailing divider, and each of its cells is a markdown
    cell with one source string and empty metadata. *)
Theorem notebook_cells_wellformed text0 :
  exists nb middle,
    parse_input_to_notebook text0 = Ok nb
    /\ cells nb = metadata_cell :: middle ++ [final_separator]
    /\ Forall (fun c => cell_type c = txt "markdown"
                        /\ length (source c) = 1
                        /\ metadata c = [])
              (cells nb).
Proof.
  eexists. exists (map clean_cell (flat_map plain_cells (labelled text0))).
  split; [apply parse_input_to_notebook_shape|]. cbn [cells]. split.
  - cbn [map]. now rewrite map_app.
  - eapply Forall_impl; [|apply notebook_cells_markdown].
    intros c (s & i & ->). auto.
Qed.

Lemma contains_nowhere p : forall s,
  (forall pre u, s = pre ++ u -> startswith p u = false) ->
  contains p s = false.
Proof.
  induction s as [|c s IH]; intros H.
  - simpl. now rewrite (H [] []).
  - simpl. rewrite (H [] (c :: s) eq_refl). simpl. apply IH.
    intros pre u E. apply (H (c :: pre) u). now rewrite E.
Qed.

Lemma cut_has_no_marker s : contains end_marker (cut s) = false.
Proof.
  apply contains_nowhere. intros pre u E.
  eapply before_clean; [discriminate|exact E].
Qed.

(** X6: no source string of the notebook contains the document-end
    marker, whatever the input. *)
Theorem no_end_marker_in_notebook text0 :
  exists nb,
    parse_input_to_notebook text0 = Ok nb
    /\ Forall (fun c =>
                 Forall (fun s => contains (txt "\end{document}") s = false)
                        (source c))
              (cells nb).
Proof.
  eexists. split; [apply parse_input_to_notebook_shape|]. cbn [cells].
  eapply Forall_impl; [|apply notebook_cells_markdown].
  intros c (s & i & ->). cbn [source markdown_cell].
  repeat constructor. apply cut_has_no_marker.
Qed.

(** ** The ids of the section cells *)

Lemma notebook_ids es :
  map id (map clean_cell
              (metadata_cell :: flat_map plain_cells es ++ [final_separator]))
  = map render (IdMetadata :: flat_map plain_ids es ++ [IdFinal]).
Proof.
  rewrite map_map.
  rewrite (map_ext (fun c => id (clean_cell c)) id id_clean_cell).
  cbn [map]. now rewrite !map_app, ids_flat_map.
Qed.

Lemma filter_map_commute {A B} (f : A -> B) (p : B -> bool) l :
  filter p (map f l) = map f (filter (fun x => p (f x)) l).
Proof.
  induction l as [|x l IH]; [reflexivity|].
  simpl. destruct (p (f x)); simpl; now rewrite IH.
Qed.

Lemma section_prefix_render x :
  startswith (txt "section_") (render x) = is_section x.
Proof. destruct x; reflexivity. Qed.

Lemma section_ids_indexed : forall segs a,
  filter is_section (flat_map plain_ids (indexed a segs))
  = map (fun k => IdSection (1 + k * 2)) (seq a (length segs)).
Proof.
  induction segs as [|[m g] segs IH]; intros a; [reflexivity|].
  cbn [indexed flat_map length seq map]. rewrite filter_app, IH.
  unfold plain_ids.
  destruct (has_section_shape (label_of m));
    [|destruct (found prompt_response (upper (label_of m)))]; reflexivity.
Qed.

(** X7: the section cells carry the ids section_1, section_3,
    section_5, ... in this order, one for each match of the section
    pattern before the document-end marker. *)
Theorem section_ids_are_odd text0 :
  exists nb,
    parse_input_to_notebook text0 = Ok nb
    /\ map id (filter is_section_id (cells nb))
       = map (fun k => txt "section_" ++ str_of_nat (1 + k * 2))
             (seq 0 (count_hits (items false section_marker (cut text0)))).
Proof.
  eexists. split; [apply parse_input_to_notebook_shape|]. cbn [cells].
  unfold is_section_id.
  rewrite <- (filter_map_commute id (startswith (txt "section_"))).
  rewrite notebook_ids.
  rewrite (filter_map_commute render (startswith (txt "section_"))).
  rewrite (filter_ext _ is_section section_prefix_render).
  cbn [filter is_section]. rewrite filter_app. cbn [filter is_section].
  rewrite app_nil_r. unfold labelled. rewrite section_ids_indexed.
  rewrite segments_count, map_map. reflexivity.
Qed.

(** ** The labels *)

Lemma marker_close_label s1 p s cs x :
  marker_close s1 p s cs = Some x ->
  exists sb,
    s = txt "]}" ++ sb
    /\ x = (sb, (1, firstn (length s1 - length (txt "}" ++ sb)) s1) :: cs).
Proof.
  unfold marker_close. intros H.
  destruct (eat (txt "]") p s) as [[pa sa]|] eqn:E1; [|discriminate].
  destruct (eat (txt "}") pa sa) as [[pb sb]|] eqn:E2; [|discriminate].
  apply eat_sound in E1, E2. subst. inversion H.
  exists sb. split; reflexivity.
Qed.

Lemma firstn_label {A} (h a b : A) pre sb :
  firstn (length (pre ++ a :: b :: sb) - length sb)
         (h :: pre ++ a :: b :: sb)
  = h :: pre ++ [a].
Proof.
  replace (length (pre ++ a :: b :: sb) - length sb)
    with (S (length (pre ++ [a])))
    by (rewrite !length_app; simpl; lia).
  cbn [firstn]. f_equal.
  replace (pre ++ a :: b :: sb) with ((pre ++ [a]) ++ b :: sb)
    by (now rewrite <- app_assoc).
  now rewrite firstn_app, firstn_all, Nat.sub_diag, firstn_0, app_nil_r.
Qed.

(** What a match of the top-level pattern captures. *)
Lemma marker_run_label prev s s' cs' :
  marker_run (txt "[") prev s = Some (s', cs') ->
  exists body,
    cs' = [(1, txt "[" ++ body ++ txt "]")] /\ one_line body = true.
Proof.
  unfold marker_run. intros H.
  destruct (eat (txt "\section*{") prev s) as [[p1 s1]|] eqn:E1;
    [|discriminate].
  destruct (eat (txt "[") p1 s1) as [[p2 s2]|] eqn:E2; [|discriminate].
  apply eat_sound in E1, E2. subst s s1.
  apply lazy_run_inv in H as (pre & t & p3 & -> & Hpre & H).
  apply marker_close_label in H as (sb & -> & H). inversion H; subst.
  exists pre. split; [|exact Hpre].
  do 2 f_equal. apply firstn_label.
Qed.

Lemma match_at_label prev s m :
  match_at false section_marker prev s false = Some m ->
  exists body,
    group 1 (m_groups m) = Some (txt "[" ++ body ++ txt "]")
    /\ one_line body = true.
Proof.
  rewrite section_marker_shape, match_at_marker.
  destruct (marker_run (txt "[") prev s) as [[s' cs']|] eqn:E;
    [|discriminate].
  apply marker_run_label in E as (body & -> & Hb).
  intros H. inversion H. exists body. auto.
Qed.

Lemma nth_error_entries x : forall segs k,
  nth_error (x :: flat_map (split_entry [1]) segs) (1 + k * 2)
  = option_map (fun mg : rmatch * text => group 1 (m_groups (fst mg)))
               (nth_error segs k).
Proof.
  induction segs as [|mg segs IH]; intros k.
  - destruct k; reflexivity.
  - destruct k as [|k]; [reflexivity|].
    change (1 + S k * 2) with (S (S (1 + k * 2))).
    cbn [flat_map split_entry map app nth_error]. apply IH.
Qed.

(** X8: every label that the split on the section pattern returns (the
    entries at the odd indexes) is a bracketed text without a newline
    between the brackets. *)
Theorem labels_are_bracketed text0 :
  Forall (fun i =>
            exists body,
              nth_error (split section_marker text0) i
              = Some (Some (txt "[" ++ body ++ txt "]"))
              /\ one_line body = true)
         (range 1 (length (split section_marker text0)) 2).
Proof.
  rewrite split_one_group by reflexivity. cbn [length].
  rewrite length_entries.
  change (S (2 * ?n)) with (1 + 2 * n). rewrite range_pairs.
  pose proof (@scan_segments false (marker (txt "["))
                (fun m => exists body,
                     group 1 (m_groups m) = Some (txt "[" ++ body ++ txt "]")
                     /\ one_line body = true)
                (@marker_nonempty (txt "[")) (@marker_ext (txt "["))
                match_at_label text0 None 0) as (_ & _ & Hall).
  fold (items false (marker (txt "[")) text0) in Hall.
  rewrite <- section_marker_shape in Hall.
  apply Forall_forall. intros i Hi.
  apply in_map_iff in Hi as (k & <- & Hk). apply in_seq in Hk.
  rewrite nth_error_entries.
  destruct (nth_error (snd (segments (items false section_marker text0))) k)
    as [mg|] eqn:E.
  - apply nth_error_In in E.
    rewrite Forall_forall in Hall. destruct (Hall mg E) as [(body & Hg & Hb) _].
    exists body. cbn [option_map]. now rewrite Hg.
  - apply nth_error_None in E. lia.
Qed.

(** ** Text in front of the first marker *)

Lemma marker_close_prev s1 p p' s cs :
  marker_close s1 p s cs = marker_close s1 p' s cs.
Proof.
  unfold marker_close.
  pose proof (eat_strip_prefix (txt "]") p s) as H1.
  pose proof (eat_strip_prefix (txt "]") p' s) as H2.
  destruct (eat (txt "]") p s) as [[pa sa]|],
           (eat (txt "]") p' s) as [[pa' sa']|]; simpl in H1, H2;
    try congruence.
  assert (sa = sa') by congruence. subst sa'.
  pose proof (eat_strip_prefix (txt "}") pa sa) as H3.
  pose proof (eat_strip_prefix (txt "}") pa' sa) as H4.
  destruct (eat (txt "}") pa sa) as [[pb sb]|],
           (eat (txt "}") pa' sa) as [[pb' sb']|]; simpl in H3, H4;
    congruence.
Qed.

Lemma lazy_run_prev ok (k : cont) :
  (forall p p' s cs, k p s cs = k p' s cs) ->
  forall s p p' cs, lazy_run ok k p s cs = lazy_run ok k p' s cs.
Proof.
  intros Hk. induction s as [|c s IH]; intros p p' cs; simpl;
    rewrite (Hk p p'); reflexivity.
Qed.

Lemma marker_run_prev opening prev prev' s :
  marker_run opening prev s = marker_run opening prev' s.
Proof.
  unfold marker_run.
  pose proof (eat_strip_prefix (txt "\section*{") prev s) as H1.
  pose proof (eat_strip_prefix (txt "\section*{") prev' s) as H2.
  destruct (eat (txt "\section*{") prev s) as [[p1 s1]|],
           (eat (txt "\section*{") prev' s) as [[p1' s1']|];
    simpl in H1, H2; try congruence.
  assert (s1 = s1') by congruence. subst s1'.
  pose proof (eat_strip_prefix opening p1 s1) as H3.
  pose proof (eat_strip_prefix opening p1' s1) as H4.
  destruct (eat opening p1 s1) as [[p2 s2]|],
           (eat opening p1' s1) as [[p2' s2']|];
    simpl in H3, H4; try congruence.
  assert (s2 = s2') by congruence. subst s2'.
  apply lazy_run_prev. intros. apply marker_close_prev.
Qed.

Lemma scan_marker_prev opening : forall s prev prev' skip,
  scan false (marker opening) prev s skip
  = scan false (marker opening) prev' s skip.
Proof.
  induction s as [|c s IH]; intros prev prev' skip.
  - destruct skip; cbn [scan]; [|reflexivity].
    now rewrite !match_at_marker, (marker_run_prev opening prev prev').
  - destruct skip; cbn [scan]; [|reflexivity].
    rewrite !match_at_marker, (marker_run_prev opening prev prev').
    unfold match_at. rewrite !marker_unfold.
    reflexivity.
Qed.

Lemma startswith_other_head c l s :
  Ascii.eqb c bsl = false -> startswith (bsl :: l) (c :: s) = false.
Proof.
  intros H. unfold startswith. simpl.
  now rewrite Ascii.eqb_sym, H.
Qed.

Lemma cut_plain_prefix : forall pre t,
  plain pre = true -> cut (pre ++ t) = pre ++ cut t.
Proof.
  induction pre as [|c pre IH]; intros t H; [reflexivity|].
  simpl in H. apply andb_true_iff in H as [Hc Hp].
  apply negb_true_iff in Hc.
  unfold cut in *. cbn [app before].
  unfold end_marker at 1.
  change (txt "\end{document}") with (bsl :: txt "end{document}").
  rewrite startswith_other_head by exact Hc. f_equal. now apply IH.
Qed.

Lemma scan_plain_prefix opening : forall pre u prev,
  plain pre = true ->
  scan false (marker opening) prev (pre ++ u) 0
  = map Keep pre ++ scan false (marker opening) None u 0.
Proof.
  induction pre as [|c pre IH]; intros u prev H.
  - apply scan_marker_prev.
  - simpl in H. apply andb_true_iff in H as [Hc Hp].
    apply negb_true_iff in Hc.
    cbn [app scan]. unfold marker at 1.
    rewrite match_at_literal_head
      by (change (txt "\section*{") with (bsl :: txt "section*{");
          now apply startswith_other_head).
    cbn [map app]. f_equal. now apply IH.
Qed.

Lemma segments_keep_app pre its :
  segments (map Keep pre ++ its)
  = (pre ++ fst (segments its), snd (segments its)).
Proof.
  induction pre as [|c pre IH]; [simpl; now destruct (segments its)|].
  cbn [map app]. now rewrite segments_keep, IH.
Qed.

Lemma labelled_plain_prefix pre t :
  plain pre = true -> labelled (pre ++ t) = labelled t.
Proof.
  intros H. unfold labelled, items.
  rewrite cut_plain_prefix by exact H. rewrite section_marker_shape.
  rewrite scan_plain_prefix by exact H. now rewrite segments_keep_app.
Qed.

(** X9: text in front of the first section marker does not reach the
    notebook: a text without a backslash put in front of an input
    leaves the notebook as it is. *)
Theorem text_before_first_marker_dropped pre text0 :
  plain pre = true ->
  parse_input_to_notebook (pre ++ text0) = parse_input_to_notebook text0.
Proof.
  intros H. rewrite !parse_input_to_notebook_shape.
  now rewrite labelled_plain_prefix by exact H.
Qed.

Lemma text_before_first_marker_dropped_witness :
  parse_input_to_notebook (txt "Title page. " ++ section_and_atomic)
  = parse_input_to_notebook section_and_atomic.
Proof.
  apply (@text_before_first_marker_dropped (txt "Title page. ")
           section_and_atomic).
  reflexivity.
Defined.

(** ** Groups that every match binds *)

Lemma keeps_refl cs : keeps cs cs.
Proof. intros n H. exact H. Qed.

Lemma keeps_trans a b c : keeps a b -> keeps b c -> keeps a c.
Proof. intros H1 H2 n H. apply H2, H1, H. Qed.

Lemma keeps_cons n g cs : keeps cs ((n, g) :: cs).
Proof.
  intros m H. simpl. now destruct (n =? m).
Qed.

Lemma star_loop_cont
  (body : option ascii -> text -> caps -> cont -> option (text * caps))
  lz (k : cont) :
  (forall prev s cs (k' : cont) x,
      body prev s cs k' = Some x ->
      exists p1 s1 cs1, k' p1 s1 cs1 = Some x /\ keeps cs cs1) ->
  forall n prev s cs x,
    star_loop body lz k n prev s cs = Some x ->
    exists p' s' cs', k p' s' cs' = Some x /\ keeps cs cs'.
Proof.
  intros Hbody.
  assert (Hagain : forall n, 
    (forall prev s cs x,
        star_loop body lz k n prev s cs = Some x ->
        exists p' s' cs', k p' s' cs' = Some x /\ keeps cs cs') ->
    forall prev s cs x,
      body prev s cs
           (fun p1 s1 cs1 =>
              if length s1 <? length s
              then star_loop body lz k n p1 s1 cs1 else None) = Some x ->
      exists p' s' cs', k p' s' cs' = Some x /\ keeps cs cs').
  { intros n IH prev s cs x H.
    apply Hbody in H as (p1 & s1 & cs1 & H & Hk1).
    destruct (length s1 <? length s); [|discriminate].
    apply IH in H as (p' & s' & cs' & H & Hk2).
    exists p', s', cs'. split; [exact H|]. eapply keeps_trans; eauto. }
  induction n as [|n IH]; intros prev s cs x H.
  - exists prev, s, cs. split; [exact H|apply keeps_refl].
  - cbn [star_loop] in H. destruct lz.
    + destruct (k prev s cs) as [y|] eqn:E.
      * exists prev, s, cs. split; [congruence|apply keeps_refl].
      * now apply (Hagain n IH) in H.
    + destruct (body prev s cs _) as [y|] eqn:E.
      * inversion H; subst. now apply (Hagain n IH) in E.
      * exists prev, s, cs. split; [exact H|apply keeps_refl].
Qed.

(** A successful match ends in its continuation, with every group that
    was bound still bound. *)
Lemma rx_cont dotall : forall r prev s cs (k : cont) x,
  rx dotall r prev s cs k = Some x ->
  exists p' s' cs', k p' s' cs' = Some x /\ keeps cs cs'.
Proof.
  induction r as [l| |p|r1 IH1 r2 IH2|r1 IH1 r2 IH2|lz r1 IH1|n r1 IH1|];
    intros prev s cs k x H; cbn [rx] in H.
  - destruct (eat l prev s) as [[p' s']|]; [|discriminate].
    exists p', s', cs. split; [exact H|apply keeps_refl].
  - destruct s as [|c s]; [discriminate|].
    destruct (dotall || negb (Ascii.eqb c nl)); [|discriminate].
    exists (Some c), s, cs. split; [exact H|apply keeps_refl].
  - destruct s as [|c s]; [discriminate|].
    destruct (in_class p c); [|discriminate].
    exists (Some c), s, cs. split; [exact H|apply keeps_refl].
  - apply IH1 in H as (p1 & s1 & cs1 & H & Hk1).
    apply IH2 in H as (p2 & s2 & cs2 & H & Hk2).
    exists p2, s2, cs2. split; [exact H|]. eapply keeps_trans; eauto.
  - destruct (rx dotall r1 prev s cs k) as [y|] eqn:E.
    + inversion H; subst. now apply IH1 in E.
    + now apply IH2 in H.
  - eapply star_loop_cont; [|exact H].
    intros p0 s0 c0 k0 x0 Hb. exact (IH1 _ _ _ _ _ Hb).
  - apply IH1 in H as (p1 & s1 & cs1 & H & Hk1).
    eexists p1, s1, _. split; [exact H|].
    eapply keeps_trans; [exact Hk1|apply keeps_cons].
  - destruct (xorb (word_before prev) (word_after s)); [|discriminate].
    exists prev, s, cs. split; [exact H|apply keeps_refl].
Qed.

Lemma rx_binds dotall n : forall r,
  binds n r = true ->
  forall prev s cs (k : cont) x,
    rx dotall r prev s cs k = Some x ->
    exists p' s' cs', k p' s' cs' = Some x /\ group n cs' <> None.
Proof.
  induction r as [l| |p|r1 IH1 r2 IH2|r1 IH1 r2 IH2|lz r1 IH1|m r1 IH1|];
    intros Hb prev s cs k x H; cbn [binds] in Hb; try discriminate;
    cbn [rx] in H.
  - apply orb_true_iff in Hb as [Hb|Hb].
    + apply (IH1 Hb) in H as (p1 & s1 & cs1 & H & Hg).
      apply rx_cont in H as (p2 & s2 & cs2 & H & Hk).
      exists p2, s2, cs2. split; [exact H|now apply Hk].
    + apply rx_cont in H as (p1 & s1 & cs1 & H & _).
      now apply (IH2 Hb) in H.
  - apply andb_true_iff in Hb as [Hb1 Hb2].
    destruct (rx dotall r1 prev s cs k) as [y|] eqn:E.
    + inversion H; subst. now apply (IH1 Hb1) in E.
    + now apply (IH2 Hb2) in H.
  - apply orb_true_iff in Hb as [Hb|Hb].
    + apply Nat.eqb_eq in Hb. subst m.
      apply rx_cont in H as (p1 & s1 & cs1 & H & _).
      eexists p1, s1, _. split; [exact H|].
      simpl. now rewrite Nat.eqb_refl.
    + apply (IH1 Hb) in H as (p1 & s1 & cs1 & H & Hg).
      eexists p1, s1, _. split; [exact H|]. now apply keeps_cons.
Qed.

Lemma match_at_binds dotall n r prev s must m :
  binds n r = true ->
  match_at dotall r prev s must = Some m ->
  group n (m_groups m) <> None.
Proof.
  intros Hb. unfold match_at.
  destruct (rx dotall r prev s [] _) as [[s' cs']|] eqn:E; [|discriminate].
  intros H. inversion H. cbn [m_groups].
  apply (@rx_binds dotall n r Hb) in E as (p1 & s1 & cs1 & E & Hg).
  destruct (must && (length s1 =? length s)); [discriminate|].
  now inversion E; subst.
Qed.

Lemma scan_all_hits dotall r (P : rmatch -> Prop) :
  (forall prev s must m, match_at dotall r prev s must = Some m -> P m) ->
  forall s prev skip, all_hits P (scan dotall r prev s skip).
Proof.
  intros HP. induction s as [|c s IH]; intros prev skip.
  - destruct skip; cbn [scan]; [|exact I].
    destruct (match_at dotall r prev [] false) as [m|] eqn:E; [|exact I].
    destruct (m_len m =? 0).
    + destruct (match_at dotall r prev [] true) as [m'|] eqn:E';
        simpl; eauto.
    + simpl. eauto.
  - destruct skip; cbn [scan]; [|apply IH].
    destruct (match_at dotall r prev (c :: s) false) as [m|] eqn:E;
      [|simpl; apply IH].
    destruct (m_len m =? 0).
    + destruct (match_at dotall r prev (c :: s) true) as [m'|] eqn:E';
        simpl; eauto.
    + simpl. eauto.
Qed.

Lemma sub_with_ok dotall r f s :
  all_hits (fun m => exists u, f m = Ok u) (items dotall r s) ->
  exists t, sub_with dotall r f s = Ok t.
Proof.
  unfold sub_with. generalize (items dotall r s).
  induction l as [|[c|m] its IH]; intros H.
  - eauto.
  - destruct (IH H) as [t Ht]. rewrite Ht. simpl. eauto.
  - destruct H as [[u Hu] H]. destruct (IH H) as [t Ht].
    rewrite Hu, Ht. simpl. eauto.
Qed.

(** ** The handler *)

Lemma transform_latex_equations_ok text0 :
  exists t, transform_latex_equations text0 = Ok t.
Proof.
  apply sub_with_ok. apply scan_all_hits. intros prev s must m Hm.
  apply match_at_binds with (n := 1) in Hm; [|reflexivity].
  unfold replace_equation.
  destruct (group 1 (m_groups m)) as [g|]; [|congruence].
  cbn [str_arg bind].
  destruct (sub_ok false spaces (txt " ") g) as [u ->]; [discriminate|].
  cbn [bind]. eauto.
Qed.

Lemma substitutions_ok : forall subs : list (regex * text),
  Forall (fun p => parse_template (snd p) <> None) subs ->
  forall t,
  exists u,
    for_each subs (fun '(old, new) output_text =>
                     sub false old new output_text) t = Ok u.
Proof.
  induction subs as [|[old new] subs IH]; intros Hall t; [simpl; eauto|].
  inversion Hall as [|? ? Hp Hps]; subst.
  cbn [for_each]. destruct (sub_ok false old new t Hp) as [u ->].
  cbn [bind]. now apply IH.
Qed.

Lemma perform_substitutions_ok text0 :
  exists t, perform_substitutions text0 = Ok t.
Proof.
  apply substitutions_ok. unfold substitutions.
  repeat constructor; intros H; vm_compute in H; discriminate H.
Qed.

Lemma escape_ok nb :
  escape_latex_delimiters_in_notebook nb
  = Ok (Notebook (map escaped_cell (cells nb))
                 (provenance nb) (nbformat nb) (nbformat_minor nb)).
Proof.
  unfold escape_latex_delimiters_in_notebook.
  now rewrite (map_m_ok escape_cell escaped_cell escape_cell_ok).
Qed.

(** X10: the conversion behind the button raises on no input: the four
    steps always return a notebook, so the handler's error branch is
    never taken for them. *)
Theorem final_notebook_never_raises input_text :
  exists nb, final_notebook input_text = Ok nb.
Proof.
  unfold final_notebook, structured_notebook. cbv zeta.
  destruct (transform_latex_equations_ok input_text) as [t1 ->].
  cbn [bind].
  destruct (perform_substitutions_ok t1) as [t2 ->]. cbn [bind].
  rewrite parse_input_to_notebook_shape. cbn [bind].
  rewrite escape_ok. eauto.
Qed.

Lemma perform_substitutions_plain text0 :
  plain text0 = true -> perform_substitutions text0 = Ok text0.
Proof.
  intros Hp. unfold perform_substitutions, substitutions.
  cbn [for_each].
  repeat (rewrite sub_quiet;
          [cbn [bind]
          | intros H; vm_compute in H; discriminate H
          | apply quiet_without_lit; now apply plain_no_backslash_word]).
  reflexivity.
Qed.

Lemma transform_latex_equations_plain text0 :
  plain text0 = true -> transform_latex_equations text0 = Ok text0.
Proof.
  intros Hp. apply sub_with_quiet. apply quiet_without_literal.
  now apply plain_no_backslash_word.
Qed.

(** X11: an input without a backslash loses all its text: the handler
    returns the notebook of the metadata cell and the trailing divider
    alone. *)
Theorem plain_input_gives_two_cells input_text :
  plain input_text = true ->
  final_notebook input_text
  = Ok (Notebook [metadata_cell; final_separator] [] 4 5).
Proof.
  intros Hp. unfold final_notebook, structured_notebook. cbv zeta.
  rewrite (transform_latex_equations_plain _ Hp). cbn [bind].
  rewrite (perform_substitutions_plain _ Hp). cbn [bind].
  rewrite parse_input_to_notebook_shape. cbn [bind].
  rewrite <- (app_nil_r input_text).
  rewrite labelled_plain_prefix by exact Hp.
  vm_compute. reflexivity.
Qed.

Lemma plain_input_gives_two_cells_witness :
  final_notebook (txt "Some notes, no markup.")
  = Ok (Notebook [metadata_cell; final_separator] [] 4 5).
Proof.
  apply (@plain_input_gives_two_cells (txt "Some notes, no markup.")).
  reflexivity.
Defined.

(** ** The guard on the delimiters, text by text *)

Lemma esc_length D : forall s, length s <= length (esc D s).
Proof.
  induction s as [|c s IH]; [reflexivity|].
  cbn [esc]. destruct (Ascii.eqb c bsl && starts_in D s); simpl; lia.
Qed.

Lemma esc_fixed_iff D : forall s, esc D s = s <-> has_hit D s = false.
Proof.
  induction s as [|c s IH]; [simpl; split; intros _; reflexivity|].
  cbn [esc has_hit].
  destruct (Ascii.eqb c bsl && starts_in D s) eqn:E; cbn [orb].
  - split; [|discriminate]. intros H.
    apply (f_equal (@length ascii)) in H. simpl in H.
    pose proof (esc_length D s). lia.
  - rewrite <- IH. split; intros H; congruence.
Qed.

Lemma startswith_two d c s :
  startswith [bsl; d] (c :: s) = Ascii.eqb c bsl && starts_in [d] s.
Proof.
  unfold startswith. simpl. rewrite (Ascii.eqb_sym bsl c).
  destruct (Ascii.eqb c bsl); [|reflexivity]. simpl.
  destruct s as [|x s]; [reflexivity|]. simpl.
  rewrite (Ascii.eqb_sym d x), orb_false_r.
  now destruct (Ascii.eqb x d).
Qed.

Lemma has_hit_delimiters : forall s,
  has_hit delimiters s = has_delimiter s.
Proof.
  unfold has_delimiter.
  induction s as [|c s IH]; [reflexivity|].
  cbn [has_hit contains]. rewrite IH.
  change (txt "\(") with [bsl; "("%char].
  change (txt "\)") with [bsl; ")"%char].
  change (txt "\[") with [bsl; "["%char].
  change (txt "\]") with [bsl; "]"%char].
  rewrite !startswith_two.
  assert (Hd : starts_in delimiters s
               = starts_in ["("%char] s || starts_in [")"%char] s
                 || starts_in ["["%char] s || starts_in ["]"%char] s).
  { destruct s as [|x s]; [reflexivity|]. simpl.
    now rewrite !orb_false_r, !orb_assoc. }
  rewrite Hd.
  destruct (Ascii.eqb c bsl); cbn [andb orb];
    repeat match goal with
           | |- context [starts_in ?D s] => destruct (starts_in D s)
           | |- context [contains ?p s] => destruct (contains p s)
           end; reflexivity.
Qed.

(** X12: the guard returns a source string unchanged exactly when the
    string contains none of the four escaped delimiters. *)
Theorem escape_text_unchanged_iff s :
  escape_text s = Ok s <-> has_delimiter s = false.
Proof.
  rewrite escape_text_ok. unfold escape_delimiters.
  rewrite <- has_hit_delimiters, <- esc_fixed_iff.
  split; intros H; congruence.
Qed.

(** ** extract_body_content *)

Lemma cut_by_find marker : forall s,
  match find marker s with
  | Some n => firstn n s
  | None => s
  end = before marker s.
Proof.
  induction s as [|c s IH]; cbn [find before].
  - now destruct (startswith marker []).
  - destruct (startswith marker (c :: s)); [reflexivity|].
    destruct (find marker s) as [n|]; cbn [option_map firstn];
      f_equal; exact IH.
Qed.

Lemma find_absent marker : forall s,
  contains marker s = false -> find marker s = None.
Proof.
  induction s as [|c s IH]; intros H; simpl in H;
    apply orb_false_iff in H as [H1 H2]; cbn [find]; rewrite H1;
    [reflexivity|].
  now rewrite (IH H2).
Qed.

Lemma find_first_marker c m : ~ In c m -> forall a rest,
  contains (c :: m) a = false ->
  find (c :: m) (a ++ (c :: m) ++ rest) = Some (length a).
Proof.
  intros Hc. induction a as [|x a IH]; intros rest Ha.
  - cbn [app find].
    replace (startswith (c :: m) (c :: m ++ rest)) with true; [reflexivity|].
    symmetry. apply startswith_true. now exists rest.
  - simpl in Ha. apply orb_false_iff in Ha as [Hx Ha].
    cbn [app find length].
    destruct (startswith (c :: m) (x :: a ++ c :: m ++ rest)) eqn:E.
    + apply (@startswith_before_marker c m (x :: a) rest Hc) in E
        as [E|E]; congruence.
    + pose proof (IH rest Ha) as IHr. cbn [app] in IHr. now rewrite IHr.
Qed.

Lemma before_absent marker s :
  contains marker s = false -> before marker s = s.
Proof.
  intros H. apply before_fixed. intros pre u ->.
  apply contains_startswith. eapply contains_suffix; eauto.
Qed.

Lemma extract_body_content_cut text0 :
  extract_body_content text0
  = strip (cut match find begin_marker text0 with
               | Some begin_pos =>
                   skipn (begin_pos + length begin_marker) text0
               | None => text0
               end).
Proof.
  unfold extract_body_content, cut. cbv zeta.
  now rewrite <- (cut_by_find end_marker).
Qed.

(** X13: on a text with neither marker extract_body_content returns the
    text stripped of its surrounding whitespace. *)
Theorem extract_body_content_no_markers text0 :
  contains (txt "\begin{document}") text0 = false ->
  contains (txt "\end{document}") text0 = false ->
  extract_body_content text0 = strip text0.
Proof.
  intros Hb He. rewrite extract_body_content_cut.
  unfold begin_marker. rewrite (find_absent _ _ Hb).
  unfold cut, end_marker. now rewrite (before_absent _ _ He).
Qed.

Lemma extract_body_content_no_markers_witness :
  extract_body_content (txt "  x + y  ") = strip (txt "  x + y  ").
Proof.
  apply (@extract_body_content_no_markers (txt "  x + y  ")); reflexivity.
Defined.

(** X14: extract_body_content undoes the wrapping of a body in the two
    document markers: whatever stands before the begin marker and after
    the end marker, the body comes back stripped, provided no begin
    marker stands before it and it holds no end marker. *)
Theorem extract_body_content_wrapped a body rest :
  contains (txt "\begin{document}") a = false ->
  contains (txt "\end{document}") body = false ->
  extract_body_content
    (a ++ txt "\begin{document}" ++ body ++ txt "\end{document}" ++ rest)
  = strip body.
Proof.
  intros Ha Hb. rewrite extract_body_content_cut.
  unfold begin_marker.
  change (txt "\begin{document}") with (bsl :: txt "begin{document}") at 1 2.
  rewrite (@find_first_marker bsl (txt "begin{document}"))
    by (exact Ha || (simpl; intuition discriminate)).
  change (bsl :: txt "begin{document}") with (txt "\begin{document}").
  rewrite skipn_app, skipn_all2 by lia.
  replace (length a + length (txt "\begin{document}") - length a)
    with (length (txt "\begin{document}")) by lia.
  cbn [app]. rewrite skipn_app, skipn_all, Nat.sub_diag. cbn [skipn app].
  f_equal. change (txt "\end{document}") with end_marker.
  rewrite (cut_app_end_marker body rest).
  unfold cut. now apply before_absent.
Qed.

Lemma extract_body_content_wrapped_witness :
  extract_body_content
    (txt "\documentclass{article}" ++ txt "\begin{document}"
     ++ txt " Hello " ++ txt "\end{document}" ++ txt " trailing")
  = strip (txt " Hello ").
Proof.
  apply (@extract_body_content_wrapped (txt "\documentclass{article}")
           (txt " Hello ") (txt " trailing")); reflexivity.
Defined.

(** X15: what extract_body_content returns never holds a document-end
    marker. *)
Theorem extract_body_content_no_end_marker text0 :
  contains (txt "\end{document}") (extract_body_content text0) = false.
Proof.
  rewrite extract_body_content_cut.
  set (t := match find begin_marker text0 with
            | Some p => skipn (p + length begin_marker) text0
            | None => text0
            end).
  destruct (strip_part (cut t)) as (x & y & H).
  pose proof (cut_has_no_marker t) as Hc. rewrite H in Hc.
  apply contains_suffix in Hc. now apply contains_prefix in Hc.
Qed.

(** ** transform_latex_equations *)

(** X16: transform_latex_equations raises on no input, and returns a
    text without an opening display bracket as it is. *)
Theorem transform_latex_equations_total text0 :
  exists t,
    transform_latex_equations text0 = Ok t
    /\ (contains (txt "\[") text0 = false -> t = text0).
Proof.
  destruct (transform_latex_equations_ok text0) as [t Ht].
  exists t. split; [exact Ht|]. intros Hc.
  assert (H : transform_latex_equations text0 = Ok text0)
    by (apply sub_with_quiet; now apply quiet_without_literal).
  congruence.
Qed.

(** ** The escapes of perform_substitutions and the final clean-up *)

Lemma startswith_cons a w c s :
  startswith (a :: w) (c :: s) = Ascii.eqb a c && startswith w s.
Proof.
  unfold startswith. simpl. now destruct (Ascii.eqb a c).
Qed.

Lemma replace_from_skip old new : forall w rest,
  replace_from old new (w ++ rest) (length w) = replace_from old new rest 0.
Proof.
  induction w as [|x w IH]; intros rest; [reflexivity|].
  simpl. destruct w as [|y w]; [now destruct rest|]. apply IH.
Qed.

Lemma plain_head w c : plain (c :: w) = true -> Ascii.eqb c bsl = false.
Proof.
  simpl. intros H. apply andb_true_iff in H as [H _].
  now apply negb_true_iff in H.
Qed.

(** Doubling leaves a text as it is up to its first backslash. *)
Lemma startswith_dbl K : forall w s,
  plain w = true -> startswith w (dbl K s) = startswith w s.
Proof.
  induction w as [|a w IH]; intros s Hw; [reflexivity|].
  pose proof (@plain_head _ _ Hw) as Ha.
  simpl in Hw. apply andb_true_iff in Hw as [_ Hw].
  destruct s as [|c s]; [reflexivity|]. cbn [dbl].
  destruct (Ascii.eqb c bsl) eqn:Ec.
  - apply Ascii.eqb_eq in Ec. subst c.
    destruct (starts_with_any K s); cbn [andb];
      rewrite !startswith_cons, Ha; reflexivity.
  - cbn [andb]. rewrite !startswith_cons. now rewrite IH.
Qed.

Lemma dbl_plain_prefix K : forall w rest,
  plain w = true -> dbl K (w ++ rest) = w ++ dbl K rest.
Proof.
  induction w as [|a w IH]; intros rest Hw; [reflexivity|].
  pose proof (@plain_head _ _ Hw) as Ha.
  simpl in Hw. apply andb_true_iff in Hw as [_ Hw].
  cbn [app dbl]. rewrite Ha. cbn [andb]. f_equal. now apply IH.
Qed.

Lemma dbl_bsl_in K s :
  starts_with_any K s = true -> dbl K (bsl :: s) = bsl :: bsl :: dbl K s.
Proof. intros H. cbn [dbl]. now rewrite Ascii.eqb_refl, H. Qed.

Lemma dbl_bsl_out K s :
  starts_with_any K s = false -> dbl K (bsl :: s) = bsl :: dbl K s.
Proof. intros H. cbn [dbl]. now rewrite Ascii.eqb_refl, H. Qed.

Lemma dbl_other K c s :
  Ascii.eqb c bsl = false -> dbl K (c :: s) = c :: dbl K s.
Proof. intros H. cbn [dbl]. now rewrite H. Qed.

(** One substitution of [perform_substitutions] doubles the backslash
    of one macro. *)
Lemma replace_dbl w : w <> [] -> plain w = true ->
  forall s, replace (bsl :: w) (bsl :: bsl :: w) s = dbl [w] s.
Proof.
  intros Hne Hw.
  induction s as [s IH] using list_ind_len.
  destruct s as [|c s]; [reflexivity|].
  unfold replace. cbn [replace_from].
  destruct (startswith (bsl :: w) (c :: s)) eqn:E.
  - apply startswith_true in E as [rest E]. inversion E; subst c s.
    cbn [length Nat.sub]. rewrite Nat.sub_0_r, replace_from_skip.
    rewrite dbl_bsl_in
      by (unfold starts_with_any; cbn [existsb];
          rewrite orb_false_r; apply startswith_true; now exists rest).
    rewrite dbl_plain_prefix by exact Hw.
    cbn [app]. do 2 f_equal. f_equal.
    apply IH. simpl. rewrite length_app. lia.
  - rewrite startswith_cons in E.
    assert (Hd : dbl [w] (c :: s) = c :: dbl [w] s).
    { destruct (Ascii.eqb c bsl) eqn:Ec.
      - apply Ascii.eqb_eq in Ec. subst c. rewrite Ascii.eqb_refl in E.
        apply dbl_bsl_out. unfold starts_with_any. cbn [existsb].
        now rewrite orb_false_r.
      - now apply dbl_other. }
    rewrite Hd. f_equal. apply IH. simpl. lia.
Qed.

(** Doubling for one more macro on top of those already handled, when
    no text starts both with the new macro and with an old one. *)
Lemma dbl_compose w K :
  w <> [] -> plain w = true ->
  (forall s, starts_with_any K s = true -> startswith w s = false) ->
  forall s, dbl [w] (dbl K s) = dbl (w :: K) s.
Proof.
  intros Hne Hw Hdis.
  assert (Hany : forall s,
             starts_with_any (w :: K) s
             = startswith w s || starts_with_any K s) by reflexivity.
  assert (Hone : forall s, starts_with_any [w] s = startswith w s)
    by (intros s; unfold starts_with_any; cbn [existsb];
        apply orb_false_r).
  assert (Hb : forall s, startswith w (bsl :: s) = false).
  { intros s. destruct w as [|a w]; [congruence|].
    rewrite startswith_cons, (@plain_head _ _ Hw). reflexivity. }
  induction s as [|c s IH]; [reflexivity|].
  destruct (Ascii.eqb c bsl) eqn:Ec.
  - apply Ascii.eqb_eq in Ec. subst c.
    destruct (starts_with_any K s) eqn:EK.
    + rewrite (dbl_bsl_in K s EK).
      rewrite (dbl_bsl_in (w :: K) s) by (now rewrite Hany, EK, orb_true_r).
      rewrite dbl_bsl_out by (now rewrite Hone, Hb).
      rewrite dbl_bsl_out; [now rewrite IH|].
      rewrite Hone, startswith_dbl by exact Hw. now apply Hdis.
    + rewrite (dbl_bsl_out K s EK).
      destruct (startswith w s) eqn:Ew.
      * rewrite dbl_bsl_in by (now rewrite Hone, startswith_dbl).
        rewrite (dbl_bsl_in (w :: K) s) by (now rewrite Hany, Ew).
        now rewrite IH.
      * rewrite dbl_bsl_out by (now rewrite Hone, startswith_dbl).
        rewrite (dbl_bsl_out (w :: K) s) by (now rewrite Hany, Ew, EK).
        now rewrite IH.
  - rewrite !dbl_other by exact Ec. now rewrite IH.
Qed.

(** The last substitution removes the backslash of an underscore. *)
Lemma replace_und : forall s, replace (txt "\_") (txt "_") s = und s.
Proof.
  induction s as [s IH] using list_ind_len.
  destruct s as [|c s]; [reflexivity|].
  unfold replace. cbn [replace_from und].
  change (txt "\_") with (bsl :: txt "_").
  rewrite startswith_cons, (Ascii.eqb_sym bsl c).
  destruct (Ascii.eqb c bsl && startswith (txt "_") s) eqn:E.
  - apply andb_true_iff in E as [_ E].
    apply startswith_true in E as [rest ->].
    change (length (bsl :: txt "_") - 1) with (length (txt "_")).
    rewrite replace_from_skip.
    change (und (txt "_" ++ rest)) with (txt "_" ++ und rest).
    f_equal. apply IH. simpl. lia.
  - f_equal. apply IH. simpl. lia.
Qed.

Lemma starts_bsl_newline : forall s,
  starts_bsl (replace (txt "\\") (txt "\newline") s) = starts_bsl s.
Proof.
  intros [|c s]; [reflexivity|].
  unfold replace. cbn [replace_from].
  destruct (startswith (txt "\\") (c :: s)) eqn:E; [|reflexivity].
  apply startswith_true in E as [rest E]. inversion E. reflexivity.
Qed.

(** After the first substitution no two backslashes are adjacent. *)
Lemma newline_no_double : forall s,
  contains [bsl; bsl] (replace (txt "\\") (txt "\newline") s) = false.
Proof.
  induction s as [s IH] using list_ind_len.
  destruct s as [|c s]; [reflexivity|].
  unfold replace. cbn [replace_from].
  destruct (startswith (txt "\\") (c :: s)) eqn:E.
  - apply startswith_true in E as [rest E]. inversion E; subst c s.
    match goal with
    | |- context [replace_from ?o ?n (?b :: rest) ?k] =>
        change (replace_from o n (b :: rest) k)
          with (replace_from o n ([b] ++ rest) (length [b]))
    end.
    rewrite replace_from_skip.
    change (contains [bsl; bsl] (txt "\newline" ++ replace_from (txt "\\") (txt "\newline") rest 0))
      with (contains [bsl; bsl] (replace (txt "\\") (txt "\newline") rest)).
    apply IH. simpl. lia.
  - change (replace_from (txt "\\") (txt "\newline") s 0)
      with (replace (txt "\\") (txt "\newline") s).
    cbn [contains]. apply orb_false_iff. split; [|apply IH; simpl; lia].
    rewrite startswith_bsl2. cbn [tl]. rewrite starts_bsl_newline.
    change (txt "\\") with [bsl; bsl] in E.
    rewrite startswith_bsl2 in E. exact E.
Qed.

Lemma starts_bsl_und_dbl K s :
  starts_bsl s = false -> starts_bsl (und (dbl K s)) = false.
Proof.
  destruct s as [|c s]; [reflexivity|]. cbn [starts_bsl]. intros Hc.
  rewrite dbl_other by exact Hc. cbn [und]. rewrite Hc. exact Hc.
Qed.

Lemma macro_not_underscore s :
  starts_with_any escaped_macros s = true -> startswith (txt "_") s = false.
Proof.
  unfold starts_with_any, escaped_macros. cbn [existsb]. intros H.
  repeat (apply orb_true_iff in H as [H|H];
          [apply startswith_true in H as [rest ->]; reflexivity|]).
  discriminate H.
Qed.

(** Where no two backslashes are adjacent, collapsing doubled
    backslashes undoes the doubling in front of the macros. *)
Lemma halve_und_dbl : forall u,
  contains [bsl; bsl] u = false ->
  halve (und (dbl escaped_macros u)) = und u.
Proof.
  induction u as [|c s IH]; intros H; [reflexivity|].
  cbn [contains] in H. apply orb_false_iff in H as [H2 Hs].
  specialize (IH Hs). rewrite startswith_bsl2 in H2. cbn [tl starts_bsl] in H2.
  destruct (Ascii.eqb c bsl) eqn:Ec.
  - apply Ascii.eqb_eq in Ec. subst c.
    cbn [andb] in H2.
    destruct (starts_with_any escaped_macros s) eqn:EK.
    + rewrite (dbl_bsl_in _ _ EK).
      pose proof (macro_not_underscore _ EK) as Hu.
      assert (E1 : und (bsl :: bsl :: dbl escaped_macros s)
                   = bsl :: bsl :: und (dbl escaped_macros s)).
      { cbn [und]. rewrite Ascii.eqb_refl. cbn [andb].
        change (startswith (txt "_") (bsl :: dbl escaped_macros s)) with false.
        rewrite startswith_dbl by reflexivity. now rewrite Hu. }
      rewrite E1, halve_hit, IH. cbn [und].
      now rewrite Ascii.eqb_refl, Hu.
    + rewrite (dbl_bsl_out _ _ EK). cbn [und]. rewrite Ascii.eqb_refl.
      cbn [andb]. rewrite startswith_dbl by reflexivity.
      destruct (startswith (txt "_") s); [exact IH|].
      rewrite halve_miss; [now rewrite IH|].
      rewrite startswith_bsl2. cbn [tl starts_bsl].
      rewrite Ascii.eqb_refl. cbn [andb].
      now apply starts_bsl_und_dbl.
  - rewrite dbl_other by exact Ec. cbn [und]. rewrite Ec. cbn [andb].
    rewrite halve_miss; [now rewrite IH|].
    rewrite startswith_bsl2. cbn [starts_bsl]. now rewrite Ec.
Qed.

Lemma perform_substitutions_dbl input_text :
  perform_substitutions input_text
  = Ok (und (dbl escaped_macros
               (replace (txt "\\") (txt "\newline") input_text))).
Proof.
  unfold perform_substitutions, substitutions. cbn [for_each].
  rewrite (@sub_lit false (txt "\\") (txt "\\newline") (txt "\newline"))
    by (discriminate || reflexivity).
  cbn [bind].
  rewrite (@sub_lit false (txt "\frac") (txt "\\\\frac") (txt "\\frac"))
    by (discriminate || reflexivity).
  cbn [bind].
  rewrite (@sub_lit false (txt "\right") (txt "\\\\right") (txt "\\right"))
    by (discriminate || reflexivity).
  cbn [bind].
  rewrite (@sub_lit false (txt "\rfloor") (txt "\\\\rfloor") (txt "\\rfloor"))
    by (discriminate || reflexivity).
  cbn [bind].
  rewrite (@sub_lit false (txt "\begin") (txt "\\\\begin") (txt "\\begin"))
    by (discriminate || reflexivity).
  cbn [bind].
  rewrite (@sub_lit false (txt "\theta") (txt "\\\\theta") (txt "\\theta"))
    by (discriminate || reflexivity).
  cbn [bind].
  rewrite (@sub_lit false (txt "\_") (txt "_") (txt "_"))
    by (discriminate || reflexivity).
  rewrite replace_und. do 2 f_equal.
  change (txt "\frac") with (bsl :: txt "frac").
  change (txt "\\frac") with (bsl :: bsl :: txt "frac").
  change (txt "\right") with (bsl :: txt "right").
  change (txt "\\right") with (bsl :: bsl :: txt "right").
  change (txt "\rfloor") with (bsl :: txt "rfloor").
  change (txt "\\rfloor") with (bsl :: bsl :: txt "rfloor").
  change (txt "\begin") with (bsl :: txt "begin").
  change (txt "\\begin") with (bsl :: bsl :: txt "begin").
  change (txt "\theta") with (bsl :: txt "theta").
  change (txt "\\theta") with (bsl :: bsl :: txt "theta").
  rewrite !replace_dbl by (discriminate || reflexivity).
  assert (Hdis : forall w K,
             (forall s, starts_with_any K s = true -> startswith w s = false)
             -> w <> [] -> plain w = true ->
             forall s, dbl [w] (dbl K s) = dbl (w :: K) s)
    by (intros; now apply dbl_compose).
  rewrite (Hdis (txt "right") [txt "frac"]);
    [|unfold starts_with_any; cbn [existsb]; intros s H;
      repeat (apply orb_true_iff in H as [H|H];
              [apply startswith_true in H as [rest ->]; reflexivity|]);
      discriminate H
     |discriminate|reflexivity].
  rewrite (Hdis (txt "rfloor") [txt "right"; txt "frac"]);
    [|unfold starts_with_any; cbn [existsb]; intros s H;
      repeat (apply orb_true_iff in H as [H|H];
              [apply startswith_true in H as [rest ->]; reflexivity|]);
      discriminate H
     |discriminate|reflexivity].
  rewrite (Hdis (txt "begin") [txt "rfloor"; txt "right"; txt "frac"]);
    [|unfold starts_with_any; cbn [existsb]; intros s H;
      repeat (apply orb_true_iff in H as [H|H];
              [apply startswith_true in H as [rest ->]; reflexivity|]);
      discriminate H
     |discriminate|reflexivity].
  rewrite (Hdis (txt "theta")
             [txt "begin"; txt "rfloor"; txt "right"; txt "frac"]);
    [|unfold starts_with_any; cbn [existsb]; intros s H;
      repeat (apply orb_true_iff in H as [H|H];
              [apply startswith_true in H as [rest ->]; reflexivity|]);
      discriminate H
     |discriminate|reflexivity].
  reflexivity.
Qed.

(** X17: the clean-up of the notebook undoes the doubling of
    backslashes of perform_substitutions. Cleaning the output of
    perform_substitutions gives the input with each doubled backslash
    replaced by \newline and each \_ by an underscore, cut at the end
    marker: of the seven substitutions only the first and the last
    show in a cleaned text. *)
Theorem cleanup_undoes_macro_escapes input_text :
  bind (perform_substitutions input_text) cleanup
  = cut_end_document
      (replace (txt "\_") (txt "_")
         (replace (txt "\\") (txt "\newline") input_text)).
Proof.
  rewrite perform_substitutions_dbl. cbn [bind]. unfold cleanup.
  fold halve. rewrite halve_und_dbl by apply newline_no_double.
  now rewrite replace_und.
Qed.
